(** * The audio relay of [backend/ai_agent.js]

    A shallow embedding of the relay between the LiveKit room and the
    OpenAI Realtime socket: the [AudioConverter] helpers, the Node [Buffer]
    operations they rely on, the [OpenAIRealtimeSession] object and the
    playback path of [AIAgent], followed by the properties of the
    specification stated over these definitions.

    Conventions.
    - An [Int16Array] is a [list Z]; every store goes through [ToInt16],
      the wrap-around of the ECMAScript conversion.
    - A [Buffer] is a [list Z] of octets.
    - JavaScript numbers that hold counters are [N]; durations in
      milliseconds are rationals ([Q]).
    - The objects are mutated in place by the source; here every method is
      a function from the object graph ([World]) to the object graph. *)

From Stdlib Require Import ZArith QArith Lia Lqa Ascii String Bool.
From stdpp Require Import base list strings gmap.
Import ListNotations.

Local Open Scope Z_scope.

(** ** Typed arrays and loops *)

Module JS.

(** [ToInt16] of an integral number: reduction modulo 2^16 into
    [-32768, 32767]. *)
Definition ToInt16 (z : Z) : Z := (z + 32768) mod 65536 - 32768.

Definition is_int16 (z : Z) : Prop := -32768 <= z <= 32767.

Definition is_octet (z : Z) : Prop := 0 <= z < 256.

(** [for (let i = 0; i < n; i++) body], threading the mutated state. *)
Definition for_loop {S : Type} (n : nat) (body : nat -> S -> S) (s : S) : S :=
  fold_left (fun acc i => body i acc) (seq 0 n) s.

(** [new Int16Array(n)]: [n] elements, zero filled. *)
Definition new_Int16Array (n : nat) : list Z := replicate n 0.

(** [a[i]] on a typed array; a read past the end yields [undefined], which
    a store into an [Int16Array] turns into 0. *)
Definition get (a : list Z) (i : nat) : Z := default 0 (a !! i).

(** [a[i] = v] on an [Int16Array]; a store past the end is dropped. *)
Definition set (a : list Z) (i : nat) (v : Z) : list Z := <[i := ToInt16 v]> a.

(** The numbers a [Float32Array] can hand out, with the two operations and
    the comparison [float32ToInt16] applies to them.  A finite element is a
    dyadic rational with a 24 bit significand, so its product with [0x8000]
    or [0x7FFF], computed in double precision, is exact: rationals
    model these products without rounding. *)
Inductive number : Type :=
  | NaN : number
  | NegInfinity : number
  | PosInfinity : number
  | Finite (q : Q) : number.

Definition Qltb (a b : Q) : bool := negb (Qle_bool b a).

(** [a < b] of two numbers; false as soon as one of them is [NaN]. *)
Definition lt (a b : number) : bool :=
  match a, b with
  | NaN, _ | _, NaN => false
  | _, NegInfinity => false
  | NegInfinity, _ => true
  | PosInfinity, _ => false
  | Finite _, PosInfinity => true
  | Finite x, Finite y => Qltb x y
  end.

Definition Math_min (a b : number) : number :=
  match a, b with
  | NaN, _ | _, NaN => NaN
  | _, _ => if lt b a then b else a
  end.

Definition Math_max (a b : number) : number :=
  match a, b with
  | NaN, _ | _, NaN => NaN
  | _, _ => if lt a b then b else a
  end.

Definition Qsign (q : Q) : Z := Z.sgn (Qnum q).

Definition mul (a b : number) : number :=
  match a, b with
  | NaN, _ | _, NaN => NaN
  | Finite x, Finite y => Finite (x * y)
  | Finite x, PosInfinity | PosInfinity, Finite x =>
      match Qsign x with 0 => NaN | Zpos _ => PosInfinity | Zneg _ => NegInfinity end
  | Finite x, NegInfinity | NegInfinity, Finite x =>
      match Qsign x with 0 => NaN | Zpos _ => NegInfinity | Zneg _ => PosInfinity end
  | PosInfinity, PosInfinity | NegInfinity, NegInfinity => PosInfinity
  | PosInfinity, NegInfinity | NegInfinity, PosInfinity => NegInfinity
  end.

(** Truncation toward zero of a rational. *)
Definition Qtrunc (q : Q) : Z := Z.quot (Qnum q) (Zpos (Qden q)).

(** The integral part [ToInt16] starts from: 0 for [NaN] and the
    infinities, the truncation of a finite number. *)
Definition truncate (x : number) : Z :=
  match x with
  | Finite q => Qtrunc q
  | _ => 0
  end.

(** [a[i] = x] for a number [x] stored into an [Int16Array]. *)
Definition set_number (a : list Z) (i : nat) (x : number) : list Z :=
  set a i (truncate x).

Definition of_Z (z : Z) : number := Finite (inject_Z z).

End JS.

(** ** Node's [Buffer]: octets of an [Int16Array] and the base64 codec *)

Module Buffer.

(** [Buffer.from(int16Array.buffer)]: the two octets of every element,
    low octet first (the byte order of the hosts Node runs on). *)
Definition octets_of_int16 (v : Z) : list Z :=
  let u := v mod 65536 in [u mod 256; u / 256].

Definition from_Int16Array (a : list Z) : list Z :=
  flat_map octets_of_int16 a.

(** The elements a 16 bit view reads from consecutive pairs of octets. *)
Fixpoint int16_pairs (b : list Z) : list Z :=
  match b with
  | lo :: hi :: rest => JS.ToInt16 (lo + 256 * hi) :: int16_pairs rest
  | _ => []
  end.

(** [new Int16Array(buf.buffer, buf.byteOffset, len)] where [len] is a
    JavaScript number given as the quotient [num / 2]: the constructor
    applies [ToIndex], which truncates, so [2.5] selects two elements.
    (Node places pooled buffers on multiples of 8, so the alignment
    check of the constructor passes.) *)
Definition ToIndex_half (num : nat) : nat := (num / 2)%nat.

Definition Int16Array_view (b : list Z) (len : nat) : list Z :=
  take len (int16_pairs b).

Definition alphabet : list ascii :=
  list_ascii_of_string
    "ABCDEFGHIJKLMNOPQRSTUVWXYZabcdefghijklmnopqrstuvwxyz0123456789+/".

Definition pad : ascii := "="%char.

(** The character of a 6 bit value. *)
Definition base64_char (v : Z) : ascii :=
  nth (Z.to_nat v) alphabet pad.

(** The 6 bit value of a character: both the standard and the URL
    alphabet are accepted; anything else has no value. *)
Definition unbase64 (c : ascii) : option Z :=
  let n := Z.of_nat (nat_of_ascii c) in
  if (65 <=? n) && (n <=? 90) then Some (n - 65)
  else if (97 <=? n) && (n <=? 122) then Some (n - 97 + 26)
  else if (48 <=? n) && (n <=? 57) then Some (n - 48 + 52)
  else if (n =? 43) || (n =? 45) then Some 62
  else if (n =? 47) || (n =? 95) then Some 63
  else None.

(** [buf.toString('base64')]. *)
Fixpoint encode (b : list Z) : list ascii :=
  match b with
  | [] => []
  | [x] =>
      [base64_char (x / 4); base64_char (x mod 4 * 16); pad; pad]
  | [x; y] =>
      [base64_char (x / 4); base64_char (x mod 4 * 16 + y / 16);
       base64_char (y mod 16 * 4); pad]
  | x :: y :: z :: rest =>
      base64_char (x / 4) :: base64_char (x mod 4 * 16 + y / 16)
      :: base64_char (y mod 16 * 4 + z / 64) :: base64_char (z mod 64)
      :: encode rest
  end.

Definition toString_base64 (b : list Z) : string :=
  string_of_list_ascii (encode b).

(** The 6 bit values the decoder reads: characters without a value are
    skipped and the first padding character ends the input. *)
Fixpoint sextets (cs : list ascii) : list Z :=
  match cs with
  | [] => []
  | c :: cs' =>
      if Ascii.eqb c pad then []
      else match unbase64 c with
           | Some v => v :: sextets cs'
           | None => sextets cs'
           end
  end.

Fixpoint octets (vs : list Z) : list Z :=
  match vs with
  | a :: b :: c :: d :: rest =>
      (a * 4 + b / 16) :: (b mod 16 * 16 + c / 4) :: (c mod 4 * 64 + d)
      :: octets rest
  | [a; b; c] => [a * 4 + b / 16; b mod 16 * 16 + c / 4]
  | [a; b] => [a * 4 + b / 16]
  | _ => []
  end.

(** [Buffer.from(s, 'base64')]; it never throws. *)
Definition from_base64 (s : string) : list Z :=
  octets (sextets (list_ascii_of_string s)).

End Buffer.

(** The completion of a JavaScript call: a value, or a thrown [Error] with
    its message.  The [try]/[catch] blocks of the source inspect it. *)
Inductive completion (A : Type) : Type :=
  | Normal (a : A)
  | Throw (message : string).
Arguments Normal {A} a.
Arguments Throw {A} message.

(** ** [AudioFrame] of the LiveKit binding *)

Record AudioFrame : Type := mkAudioFrame {
  data : list Z;
  sampleRate : Z;
  numChannels : Z;
  samplesPerChannel : Z
}.

(** ** [class AudioConverter] *)

Module AudioConverter.

(** [resample48to24]: the loop writes [inputBuffer[i * 2]] at [i]. *)
Definition resample48to24 (inputBuffer : list Z) : list Z :=
  let outputLength := (length inputBuffer / 2)%nat in
  let output := JS.new_Int16Array outputLength in
  JS.for_loop outputLength
    (fun i output => JS.set output i (JS.get inputBuffer (i * 2)))
    output.

(** [Math.max(-1, Math.min(1, x))]. *)
Definition clamp (x : JS.number) : JS.number :=
  JS.Math_max (JS.of_Z (-1)) (JS.Math_min (JS.of_Z 1) x).

(** [s < 0 ? s * 0x8000 : s * 0x7FFF]. *)
Definition scale (s : JS.number) : JS.number :=
  if JS.lt s (JS.of_Z 0) then JS.mul s (JS.of_Z 32768)
  else JS.mul s (JS.of_Z 32767).

(** [float32ToInt16]. *)
Definition float32ToInt16 (float32Array : list JS.number) : list Z :=
  let int16Array := JS.new_Int16Array (length float32Array) in
  JS.for_loop (length float32Array)
    (fun i int16Array =>
       let s := clamp (default JS.NaN (float32Array !! i)) in
       JS.set_number int16Array i (scale s))
    int16Array.

(** [Buffer.from(resampled.buffer).toString('base64')], the wire text of
    16 bit samples. *)
Definition toBase64 (resampled : list Z) : string :=
  let buffer := Buffer.from_Int16Array resampled in
  Buffer.toString_base64 buffer.

(** [convertForOpenAI]: resample, then the base64 text of the octets.
    The rate and the channel count of the frame are not read, and no
    statement of the body throws. *)
Definition convertForOpenAI (audioFrame : AudioFrame) : completion string :=
  let resampled := resample48to24 (data audioFrame) in
  Normal (toBase64 resampled).

End AudioConverter.

(** ** The wire and the console *)

(** [WebSocket.readyState]. *)
Inductive ReadyState : Type := CONNECTING | OPEN | CLOSING | CLOSED.

(** The events the session writes to the socket.  [session_update] stands
    for the constant configuration object of [initializeSession]. *)
Inductive ClientEvent : Type :=
  | session_update
  | input_audio_buffer_append (audio : string).

(** The parsed messages [handleMessage] switches on. *)
Inductive ServerEvent : Type :=
  | session_created (id model : string)
  | session_updated
  | input_audio_buffer_speech_started
  | input_audio_buffer_speech_stopped
  | input_audio_buffer_committed
  | input_audio_transcription_completed (transcript : string)
  | response_audio_transcript_delta (delta : string)
  | response_audio_transcript_done (transcript : string)
  | response_audio_done
  | response_audio_delta (delta : string)
  | response_done
  | error (err : string)
  | other (type : string).

(** A console line: the method and the fixed part of the text.  Of a run
    of lines printed together only the first is kept. *)
Inductive Line : Type :=
  | console_log (text : string)
  | console_warn (text : string)
  | console_error (text : string)
  | stdout_write (text : string).

(** ** The object graph *)

(** The fields of [OpenAIRealtimeSession]; [ws] is [None] for [null]. *)
Record Session : Type := mkSession {
  ws : option ReadyState;
  connected : bool;
  sessionId : option string;
  audioChunksSent : N;
  textResponsesReceived : N;
  audioChunksReceived : N
}.

(** Modelled from the spec: the playback sink ([AudioSource] of the LiveKit
    binding, which is not among the sources).  It holds the frames handed
    to it by [captureFrame], in order, and [queuedDuration], the summed
    duration in milliseconds of the frames not yet played out. *)
Record AudioSource : Type := mkAudioSource {
  queuedDuration : Q;
  captured : list AudioFrame
}.

(** The fields of [AIAgent] the relay reads or writes. *)
Record Agent : Type := mkAgent {
  audioSource : option AudioSource;
  audioFramesPublished : N
}.

(** The session, the agent, what the socket transmitted, the console, and
    the calls of [playAudioInRoom] that are suspended at an [await]:
    [waiting] holds the buffers of the calls parked at [waitForPlayout],
    [capturing] the frames of the calls parked at [captureFrame], both
    oldest first. *)
Record World : Type := mkWorld {
  openai : Session;
  agent : Agent;
  wire : list ClientEvent;
  console : list Line;
  waiting : list (list Z);
  capturing : list AudioFrame
}.

Definition with_openai (f : Session -> Session) (w : World) : World :=
  mkWorld (f (openai w)) (agent w) (wire w) (console w) (waiting w) (capturing w).

Definition with_agent (f : Agent -> Agent) (w : World) : World :=
  mkWorld (openai w) (f (agent w)) (wire w) (console w) (waiting w) (capturing w).

Definition transmit (e : ClientEvent) (w : World) : World :=
  mkWorld (openai w) (agent w) (wire w ++ [e]) (console w) (waiting w) (capturing w).

Definition console_out (l : Line) (w : World) : World :=
  mkWorld (openai w) (agent w) (wire w) (console w ++ [l]) (waiting w) (capturing w).

Definition with_waiting (f : list (list Z) -> list (list Z)) (w : World) : World :=
  mkWorld (openai w) (agent w) (wire w) (console w) (f (waiting w)) (capturing w).

Definition with_capturing (f : list AudioFrame -> list AudioFrame) (w : World) : World :=
  mkWorld (openai w) (agent w) (wire w) (console w) (waiting w) (f (capturing w)).

Definition set_ws (r : option ReadyState) (s : Session) : Session :=
  mkSession r (connected s) (sessionId s) (audioChunksSent s)
    (textResponsesReceived s) (audioChunksReceived s).

Definition set_connected (b : bool) (s : Session) : Session :=
  mkSession (ws s) b (sessionId s) (audioChunksSent s)
    (textResponsesReceived s) (audioChunksReceived s).

Definition set_sessionId (id : string) (s : Session) : Session :=
  mkSession (ws s) (connected s) (Some id) (audioChunksSent s)
    (textResponsesReceived s) (audioChunksReceived s).

Definition incr_audioChunksSent (s : Session) : Session :=
  mkSession (ws s) (connected s) (sessionId s) (audioChunksSent s + 1)
    (textResponsesReceived s) (audioChunksReceived s).

Definition incr_textResponsesReceived (s : Session) : Session :=
  mkSession (ws s) (connected s) (sessionId s) (audioChunksSent s)
    (textResponsesReceived s + 1) (audioChunksReceived s).

Definition incr_audioChunksReceived (s : Session) : Session :=
  mkSession (ws s) (connected s) (sessionId s) (audioChunksSent s)
    (textResponsesReceived s) (audioChunksReceived s + 1).

Definition set_audioSource (src : AudioSource) (a : Agent) : Agent :=
  mkAgent (Some src) (audioFramesPublished a).

Definition incr_audioFramesPublished (a : Agent) : Agent :=
  mkAgent (audioSource a) (audioFramesPublished a + 1).

(** The objects right after [new AIAgent()]. *)
Definition new_AIAgent : World :=
  mkWorld (mkSession None false None 0 0 0) (mkAgent None 0) [] [] [] [].

(** ** The playback sink *)

Module Sink.

(** Modelled from the spec: the duration of a frame in milliseconds,
    [frame.sampleCount / frame.sampleRate * 1000]. *)
Definition frameDurationMs (f : AudioFrame) : Q :=
  Qred (inject_Z (samplesPerChannel f) / inject_Z (sampleRate f) * 1000).

(** Modelled from the spec: [new AudioSource(24000, 1)], a sink with
    nothing queued. *)
Definition new_AudioSource : AudioSource := mkAudioSource 0 [].

(** Modelled from the spec: the synchronous part of [captureFrame]
    (the sink's [publish]); the frame is handed over and its duration joins
    the queue. *)
Definition captureFrame (f : AudioFrame) (src : AudioSource) : AudioSource :=
  mkAudioSource (Qred (queuedDuration src + frameDurationMs f))
    (captured src ++ [f]).

(** Modelled from the spec: playout goes on for [ms] milliseconds, which
    leave the queue (it never goes below zero). *)
Definition elapse (ms : Q) (src : AudioSource) : AudioSource :=
  let q := Qred (queuedDuration src - ms) in
  mkAudioSource (if Qle_bool 0 q then q else 0) (captured src).

(** Modelled from the spec: the queue has played out, which is when the
    sink signals drain and the promise of [waitForPlayout] settles. *)
Definition playedOut (src : AudioSource) : AudioSource :=
  mkAudioSource 0 (captured src).

End Sink.

(** ** [class OpenAIRealtimeSession] *)

Local Open Scope string_scope.
Local Open Scope list_scope.

(** [send]: the event reaches the socket only when there is one and it is
    [OPEN]; otherwise nothing happens. *)
Definition send (event : ClientEvent) (w : World) : World :=
  match ws (openai w) with
  | Some OPEN => transmit event w
  | _ => w
  end.

Definition not_connected_warning : Line :=
  console_warn "[OPENAI] Cannot send audio: not connected".

(** [sendAudio]. *)
Definition sendAudio (base64Audio : string) (w : World) : World :=
  if negb (connected (openai w)) then
    console_out not_connected_warning w
  else
    let event := input_audio_buffer_append base64Audio in
    let w := send event w in
    let w := with_openai incr_audioChunksSent w in
    if (audioChunksSent (openai w) <=? 3)%N then
      console_out (console_log "[OPENAI] TEST 3.2: Sent audio chunk") w
    else w.

(** [initializeSession]. *)
Definition initializeSession (w : World) : World :=
  let w := console_out (console_log "[OPENAI] Initializing session...") w in
  let w := send session_update w in
  console_out (console_log "[OPENAI] Session configuration sent") w.

(** The synchronous part of [connect]: the socket is created and its
    handlers are registered. *)
Definition connect (w : World) : World :=
  let w := console_out (console_log "[OPENAI] Connecting to Realtime API...") w in
  with_openai (set_ws (Some CONNECTING)) w.

(** [disconnect]. *)
Definition disconnect (w : World) : World :=
  match ws (openai w) with
  | Some _ => with_openai (fun s => set_connected false (set_ws None s)) w
  | None => w
  end.

(** ** The playback path of [AIAgent] *)

(** [setupAudioPublishing], when publishing the track succeeds. *)
Definition setupAudioPublishing (w : World) : World :=
  let w := with_agent (set_audioSource Sink.new_AudioSource) w in
  console_out (console_log "[STEP 5] TEST 5.1 PASS: AI audio track published to room") w.

Definition MAX_QUEUE_DURATION_MS : Q := 1000.
Definition SAMPLE_RATE : Z := 24000.
Definition NUM_CHANNELS : Z := 1.

(** The frame [playAudioInRoom] builds from a buffer: a 16 bit view of
    [pcm16Buffer.length / 2] elements, at the two constants.  The buffer
    is one at an even [byteOffset]: that is where [Buffer.from] puts every
    buffer it makes (the start of a store of its own, or a slot of the
    pool, which is aligned to 8), so the buffers [handleMessage] decodes,
    the only ones the program brings to [playAudioInRoom], are of that
    kind, and for them the constructor of the view cannot throw.  A list
    of octets stands for such a buffer throughout; [frameOfBufferAt] is
    the constructor at any offset. *)
Definition frameOfBuffer (pcm16Buffer : list Z) : completion AudioFrame :=
  let int16Array :=
    Buffer.Int16Array_view pcm16Buffer
      (Buffer.ToIndex_half (length pcm16Buffer)) in
  let numSamples := Z.of_nat (length int16Array) in
  Normal (mkAudioFrame int16Array SAMPLE_RATE NUM_CHANNELS numSamples).

(** The way of an audio delta from the wire to a frame: the base64 text
    is decoded in [handleMessage], the buffer is viewed in
    [playAudioInRoom]. *)
Definition decodeDelta (delta : string) : completion AudioFrame :=
  frameOfBuffer (Buffer.from_base64 delta).

(** [new Int16Array(pcm16Buffer.buffer, pcm16Buffer.byteOffset, ...)] for a
    buffer at any [byteOffset], as a caller from outside could pass one (a
    slice of another buffer): an odd offset is a [RangeError], thrown
    before a frame is built and caught at the end of [playAudioInRoom]. *)
Definition frameOfBufferAt (byteOffset : nat) (pcm16Buffer : list Z)
    : completion AudioFrame :=
  if Nat.even byteOffset then frameOfBuffer pcm16Buffer
  else Throw "start offset of Int16Array should be a multiple of 2".

Definition publish_error : Line :=
  console_error "[AI-AGENT] Error publishing audio frame".

Definition source_not_ready_warning : Line :=
  console_warn "[AI-AGENT] AudioSource not ready, skipping audio frame".

(** [playAudioInRoom] from the conversion of the buffer up to the [await]
    on [captureFrame]; the [catch] logs whatever was thrown. *)
Definition playAudioInRoom_publish (pcm16Buffer : list Z) (w : World) : World :=
  match frameOfBuffer pcm16Buffer with
  | Throw _ => console_out publish_error w
  | Normal audioFrame =>
      match audioSource (agent w) with
      | None => console_out publish_error w
      | Some src =>
          let w := with_agent (set_audioSource (Sink.captureFrame audioFrame src)) w in
          with_capturing (fun l => l ++ [audioFrame]) w
      end
  end.

(** [playAudioInRoom] after [captureFrame] settled: the counter and the
    log when it resolved, the [catch] when it rejected. *)
Definition playAudioInRoom_settled (ok : bool) (w : World) : World :=
  if ok then
    let w := with_agent incr_audioFramesPublished w in
    if (audioFramesPublished (agent w) <=? 3)%N then
      console_out (console_log "[AI-AGENT] TEST 5.2: Published AI audio frame") w
    else w
  else console_out publish_error w.

(** [playAudioInRoom] from the call to its first [await]: without a source
    the frame is skipped; above the watermark the call parks at
    [waitForPlayout]; otherwise it goes on to publish at once. *)
Definition playAudioInRoom (pcm16Buffer : list Z) (w : World) : World :=
  match audioSource (agent w) with
  | None => console_out source_not_ready_warning w
  | Some src =>
      if JS.Qltb MAX_QUEUE_DURATION_MS (queuedDuration src) then
        with_waiting (fun l => l ++ [pcm16Buffer]) w
      else playAudioInRoom_publish pcm16Buffer w
  end.

(** [handleMessage]. *)
Definition handleMessage (message : ServerEvent) (w : World) : World :=
  match message with
  | session_created id model =>
      let w := with_openai (set_sessionId id) w in
      console_out (console_log "[OPENAI] TEST 3.1 PASS: Session created") w
  | session_updated =>
      console_out (console_log "[OPENAI] Session updated successfully") w
  | input_audio_buffer_speech_started =>
      console_out (console_log "[OPENAI] Speech detected (VAD)") w
  | input_audio_buffer_speech_stopped =>
      console_out (console_log "[OPENAI] Speech ended (VAD)") w
  | input_audio_buffer_committed =>
      console_out (console_log "[OPENAI] Audio buffer committed") w
  | input_audio_transcription_completed transcript =>
      let w := console_out (console_log "[OPENAI] Transcription") w in
      with_openai incr_textResponsesReceived w
  | response_audio_transcript_delta delta =>
      console_out (stdout_write delta) w
  | response_audio_transcript_done transcript =>
      console_out (console_log "[OPENAI] AI Response") w
  | response_audio_done =>
      let w := console_out (console_log "[OPENAI] Audio response completed") w in
      if (0 <? audioChunksReceived (openai w))%N then
        console_out (console_log "[OPENAI] Total audio chunks received") w
      else w
  | response_audio_delta delta =>
      let w := with_openai incr_audioChunksReceived w in
      let w :=
        if (audioChunksReceived (openai w) <=? 3)%N then
          console_out (console_log "[OPENAI] TEST 4.1: Received audio delta") w
        else w in
      let pcm16Buffer := Buffer.from_base64 delta in
      match audioSource (agent w) with
      | Some _ => playAudioInRoom pcm16Buffer w
      | None => w
      end
  | response_done =>
      console_out (console_log "[OPENAI] Response completed") w
  | error err =>
      console_out (console_error "[OPENAI] Error") w
  | other _ => w
  end.

(** The body of the frame loop of [handleAudioTrack], as far as the relay
    is concerned: conversion and [sendAudio] under [try]/[catch]. *)
Definition forwardFrame (frame : AudioFrame) (w : World) : World :=
  if connected (openai w) then
    match AudioConverter.convertForOpenAI frame with
    | Normal base64Audio => sendAudio base64Audio w
    | Throw _ => console_out (console_error "[AI-AGENT] Audio conversion error") w
    end
  else w.

(** ** The event loop *)

(** What the runtime delivers: the socket's events, the change of its
    [readyState] when a closing handshake starts, playout going on, the
    promise of [waitForPlayout] settling, the oldest pending
    [captureFrame] settling, a frame of a subscribed track, and the ten
    second timer of [connect] (it only rejects the promise of [connect],
    and that only when [connected] is false). *)
Inductive Event : Type :=
  | SocketOpen
  | SocketMessage (message : ServerEvent)
  | SocketError
  | SocketClosing
  | SocketClose
  | Elapse (ms : Q)
  | PlayoutDone
  | CaptureSettled (ok : bool)
  | TrackFrame (frame : AudioFrame)
  | ConnectTimer.

Definition socket_state (r : ReadyState) (s : Session) : Session :=
  match ws s with
  | Some _ => set_ws (Some r) s
  | None => s
  end.

Definition on_agent_source (f : AudioSource -> AudioSource) (a : Agent) : Agent :=
  match audioSource a with
  | Some src => set_audioSource (f src) a
  | None => a
  end.

Definition handle (e : Event) (w : World) : World :=
  match e with
  | SocketOpen =>
      let w := with_openai (socket_state OPEN) w in
      let w := console_out (console_log "[OPENAI] WebSocket connected") w in
      let w := with_openai (set_connected true) w in
      initializeSession w
  | SocketMessage message => handleMessage message w
  | SocketError =>
      let w := console_out (console_error "[OPENAI] WebSocket error") w in
      with_openai (set_connected false) w
  | SocketClosing => with_openai (socket_state CLOSING) w
  | SocketClose =>
      let w := with_openai (socket_state CLOSED) w in
      let w := console_out (console_log "[OPENAI] WebSocket closed") w in
      with_openai (set_connected false) w
  | Elapse ms => with_agent (on_agent_source (Sink.elapse ms)) w
  | PlayoutDone =>
      let parked := waiting w in
      let w := with_waiting (fun _ => []) w in
      let w := with_agent (on_agent_source Sink.playedOut) w in
      fold_left (fun w pcm16Buffer => playAudioInRoom_publish pcm16Buffer w) parked w
  | CaptureSettled ok =>
      match capturing w with
      | [] => w
      | _ :: rest => playAudioInRoom_settled ok (with_capturing (fun _ => rest) w)
      end
  | TrackFrame frame => forwardFrame frame w
  | ConnectTimer => w
  end.

(** What happens to the objects: a method is called or an event arrives.
    A direct call of [playAudioInRoom] brings a buffer at an even
    [byteOffset], like the calls of [handleMessage] (see
    [frameOfBuffer]). *)
Inductive Action : Type :=
  | Connect
  | SetupAudioPublishing
  | SendAudio (base64Audio : string)
  | PlayAudioInRoom (pcm16Buffer : list Z)
  | Disconnect
  | Deliver (e : Event).

Definition exec (a : Action) (w : World) : World :=
  match a with
  | Connect => connect w
  | SetupAudioPublishing => setupAudioPublishing w
  | SendAudio base64Audio => sendAudio base64Audio w
  | PlayAudioInRoom pcm16Buffer => playAudioInRoom pcm16Buffer w
  | Disconnect => disconnect w
  | Deliver e => handle e w
  end.

Definition run (acts : list Action) (w : World) : World :=
  fold_left (fun w a => exec a w) acts w.

(** The frames the sink has been handed so far, in order. *)
Definition published (w : World) : list AudioFrame :=
  match audioSource (agent w) with
  | Some src => captured src
  | None => []
  end.

(** ** The protocol states of the specification *)

Module Spec.

(** The states and transitions as the specification words them (its
    section on the protocol session), kept apart from the session object
    above so that the two can be compared: [Idle], then [Connecting] on
    [connect], [AwaitingConfig] on the [session.created] event,
    [Configured] on [session.updated], [Active] on the first [sendAudio];
    [Failed] on the timer before [session.created] and on a socket error or
    close; [Closed] on an explicit close from [Configured], [Active] or
    [Closed].  Nothing else moves the state. *)
Inductive State : Type :=
  | Idle | Connecting | AwaitingConfig | Configured | Active | Closed | Failed.

Definition next (st : State) (a : Action) : State :=
  match a, st with
  | Connect, Idle => Connecting
  | Deliver (SocketMessage (session_created _ _)), Connecting => AwaitingConfig
  | Deliver (SocketMessage session_updated), AwaitingConfig => Configured
  | SendAudio _, Configured => Active
  | Deliver (TrackFrame _), Configured => Active
  | Deliver ConnectTimer, Connecting => Failed
  | Deliver SocketError, Closed | Deliver SocketClose, Closed => Closed
  | Deliver SocketError, _ | Deliver SocketClose, _ => Failed
  | Disconnect, Active | Disconnect, Configured | Disconnect, Closed => Closed
  | _, _ => st
  end.

Definition state_after (acts : list Action) : State :=
  fold_left next acts Idle.

Definition may_send (st : State) : bool :=
  match st with
  | Configured | Active => true
  | _ => false
  end.

End Spec.

(** ** Observations on the objects *)

(** The audio of the append events on the wire, in order. *)
Fixpoint appended_audio (l : list ClientEvent) : list string :=
  match l with
  | [] => []
  | input_audio_buffer_append audio :: l' => audio :: appended_audio l'
  | session_update :: l' => appended_audio l'
  end.

(** The frame a buffer is turned into (see [frameOfBuffer]). *)
Definition frameOf (pcm16Buffer : list Z) : AudioFrame :=
  mkAudioFrame (Buffer.int16_pairs pcm16Buffer) SAMPLE_RATE NUM_CHANNELS
    (Z.of_nat (length pcm16Buffer / 2)).

(** A buffer of [ms] milliseconds of silence in the decoder's format:
    24 samples of two octets for every millisecond. *)
Definition silence (ms : Z) : list Z := replicate (Z.to_nat (ms * 48)) 0.

(** What the playback of later frames depends on. *)
Definition playback (w : World) : Agent * list (list Z) * list AudioFrame :=
  (agent w, waiting w, capturing w).


(** ** The promise returned by [connect] *)

(** The state of a promise; [resolve] and [reject] act on a pending
    promise only, the first one wins. *)
Inductive Settled : Type :=
  | Pending
  | Fulfilled
  | Rejected (message : string).

Definition settle (outcome p : Settled) : Settled :=
  match p with
  | Pending => outcome
  | _ => p
  end.

(** What an event does to the promise of [connect]: the [open] handler
    resolves it, the [error] handler rejects it with the error of the
    socket (a fixed text stands for it), and the timer rejects it when it
    finds [connected] false.  [w] is the world the event finds. *)
Definition connect_settles (e : Event) (w : World) (p : Settled) : Settled :=
  match e with
  | SocketOpen => settle Fulfilled p
  | SocketError => settle (Rejected "WebSocket error") p
  | ConnectTimer =>
      if negb (connected (openai w)) then
        settle (Rejected "OpenAI connection timeout") p
      else p
  | _ => p
  end.

(** The events that follow a call of [connect], with the promise. *)
Fixpoint connecting (evs : list Event) (w : World) (p : Settled)
    : World * Settled :=
  match evs with
  | [] => (w, p)
  | e :: evs' => connecting evs' (handle e w) (connect_settles e w p)
  end.

(** [connect] on a fresh agent, followed by [evs]. *)
Definition connect_then (evs : list Event) : World * Settled :=
  connecting evs (connect new_AIAgent) Pending.

(** ** The registry of subscribed tracks *)

(** A [trackInfo] object of [handleAudioTrack]; [participant] is the
    identity of its participant. *)
Record TrackInfo : Type := mkTrackInfo {
  participant : string;
  frameCount : N;
  lastFrameTime : Z;
  totalBytes : N
}.

(** What the monitor prints every five seconds. *)
Inductive MonitorLine : Type :=
  | audio_stats (identity : string) (frames bytes : N) (sinceLast : Z) (avg : N)
  | no_frames_yet (identity : string).

(** [subscribedTracks] maps an identity to a [trackInfo] object.  The
    objects are shared: the frame loop of a stream keeps the object it
    was started with, whatever the map holds later.  So the objects live in
    [infos], in the order of their creation, and the map and the loops
    refer to them by index.  The call of [handleAudioTrack] that creates
    object [k] also starts interval [k]; [intervals] are the ones not yet
    cleared. *)
Record Registry : Type := mkRegistry {
  infos : list TrackInfo;
  subscribedTracks : gmap string nat;
  intervals : gset nat;
  monitorLog : list MonitorLine
}.

Definition new_Registry : Registry := mkRegistry [] ∅ ∅ [].

(** The agent with its registry. *)
Record Relay : Type := mkRelay {
  world : World;
  registry : Registry
}.

Definition new_Relay : Relay := mkRelay new_AIAgent new_Registry.

(** [handleAudioTrack], synchronous part: a fresh [trackInfo] is put in
    the map under the participant's identity and the interval is started. *)
Definition handleAudioTrack (identity : string) (now : Z) (r : Registry)
    : Registry :=
  let trackInfo := mkTrackInfo identity 0 now 0 in
  let k := length (infos r) in
  mkRegistry (infos r ++ [trackInfo]) (<[identity := k]> (subscribedTracks r))
    (intervals r ∪ {[k]}) (monitorLog r).

(** The counters of one iteration of the frame loop. *)
Definition countFrame (frame : AudioFrame) (now : Z) (t : TrackInfo) : TrackInfo :=
  mkTrackInfo (participant t) (frameCount t + 1) now
    (totalBytes t + N.of_nat (length (data frame))).

(** One iteration of the frame loop of the stream that holds object [k]:
    the counters of that object, then conversion and [sendAudio]. *)
Definition onStreamFrame (k : nat) (frame : AudioFrame) (now : Z) (x : Relay)
    : Relay :=
  let r := registry x in
  mkRelay (forwardFrame frame (world x))
    (mkRegistry (alter (countFrame frame now) k (infos r))
       (subscribedTracks r) (intervals r) (monitorLog r)).

(** [subscribedTracks.delete(participant.identity)]. *)
Definition deleteTrack (identity : string) (r : Registry) : Registry :=
  mkRegistry (infos r) (delete identity (subscribedTracks r))
    (intervals r) (monitorLog r).

(** [Math.round(a / b)] for counters, [b] positive. *)
Definition Math_round_div (a b : N) : N := ((2 * a + b) / (2 * b))%N.

(** A tick of interval [k]: it clears itself when the map has no entry
    for its participant; otherwise it prints the counters of the object
    the map holds for that identity now. *)
Definition monitorTick (k : nat) (now : Z) (r : Registry) : Registry :=
  if bool_decide (k ∈ intervals r) then
    match infos r !! k with
    | None => r
    | Some own =>
        let identity := participant own in
        match subscribedTracks r !! identity with
        | None =>
            mkRegistry (infos r) (subscribedTracks r) (intervals r ∖ {[k]})
              (monitorLog r)
        | Some j =>
            match infos r !! j with
            | None => r
            | Some info =>
                let line :=
                  if (0 <? frameCount info)%N then
                    audio_stats identity (frameCount info) (totalBytes info)
                      (now - lastFrameTime info)
                      (Math_round_div (totalBytes info) (frameCount info))
                  else no_frames_yet identity in
                mkRegistry (infos r) (subscribedTracks r) (intervals r)
                  (monitorLog r ++ [line])
            end
        end
    end
  else r.

(** The events of the room and of its streams and timers. *)
Inductive RoomEvent : Type :=
  | TrackSubscribed (identity : string) (audio : bool) (now : Z)
  | TrackUnsubscribed (identity : string)
  | ParticipantDisconnected (identity : string)
  | StreamFrame (k : nat) (frame : AudioFrame) (now : Z)
  | MonitorTick (k : nat) (now : Z).

Definition with_registry (f : Registry -> Registry) (x : Relay) : Relay :=
  mkRelay (world x) (f (registry x)).

Definition onRoomEvent (e : RoomEvent) (x : Relay) : Relay :=
  match e with
  | TrackSubscribed identity audio now =>
      if audio then with_registry (handleAudioTrack identity now) x else x
  | TrackUnsubscribed identity => with_registry (deleteTrack identity) x
  | ParticipantDisconnected identity => with_registry (deleteTrack identity) x
  | StreamFrame k frame now => onStreamFrame k frame now x
  | MonitorTick k now => with_registry (monitorTick k now) x
  end.

Definition room_run (evs : list RoomEvent) (x : Relay) : Relay :=
  fold_left (fun x e => onRoomEvent e x) evs x.

(** The [trackInfo] the map shows for an identity. *)
Definition shown (identity : string) (r : Registry) : option TrackInfo :=
  subscribedTracks r !! identity ≫= fun j => infos r !! j.

(** The frames of stream [k] among the events, in order. *)
Fixpoint frames_of_stream (k : nat) (evs : list RoomEvent) : list AudioFrame :=
  match evs with
  | [] => []
  | StreamFrame j frame _ :: evs' =>
      if bool_decide (j = k) then frame :: frames_of_stream k evs'
      else frames_of_stream k evs'
  | _ :: evs' => frames_of_stream k evs'
  end.

(** ** Counting what a run delivers *)

(** The audio buffers a run brings to [playAudioInRoom] while there is a
    source: direct calls and decoded audio deltas, in order. *)
Fixpoint arrivals (acts : list Action) : list (list Z) :=
  match acts with
  | [] => []
  | PlayAudioInRoom pcm16Buffer :: acts' => pcm16Buffer :: arrivals acts'
  | Deliver (SocketMessage (response_audio_delta delta)) :: acts' =>
      Buffer.from_base64 delta :: arrivals acts'
  | _ :: acts' => arrivals acts'
  end.

Definition is_audio_delta (a : Action) : bool :=
  match a with
  | Deliver (SocketMessage (response_audio_delta _)) => true
  | _ => false
  end.

Definition is_transcription (a : Action) : bool :=
  match a with
  | Deliver (SocketMessage (input_audio_transcription_completed _)) => true
  | _ => false
  end.

(** The buffers [handleMessage] decodes from the audio deltas of a run, in
    the order of the deltas. *)
Fixpoint delta_buffers (acts : list Action) : list (list Z) :=
  match acts with
  | [] => []
  | Deliver (SocketMessage (response_audio_delta delta)) :: acts' =>
      Buffer.from_base64 delta :: delta_buffers acts'
  | _ :: acts' => delta_buffers acts'
  end.

(** A call of [playAudioInRoom] that does not come from [handleMessage]. *)
Definition is_direct_call (a : Action) : bool :=
  match a with
  | PlayAudioInRoom _ => true
  | _ => false
  end.

Definition is_setup (a : Action) : bool :=
  match a with
  | SetupAudioPublishing => true
  | _ => false
  end.

Definition is_elapse (a : Action) : bool :=
  match a with
  | Deliver (Elapse _) => true
  | _ => false
  end.

Definition is_connect (a : Action) : bool :=
  match a with
  | Connect => true
  | _ => false
  end.

(** The identifier of the last [session.created] of a run, if any. *)
Fixpoint last_session_created (acts : list Action) (id : option string)
    : option string :=
  match acts with
  | [] => id
  | Deliver (SocketMessage (session_created id' _)) :: acts' =>
      last_session_created acts' (Some id')
  | _ :: acts' => last_session_created acts' id
  end.

(** A frame as the sink expects it: 24 kHz, one channel, as many samples
    as its data holds, each a 16 bit value. *)
Definition well_formed (f : AudioFrame) : Prop :=
  sampleRate f = SAMPLE_RATE
  /\ numChannels f = NUM_CHANNELS
  /\ samplesPerChannel f * numChannels f = Z.of_nat (length (data f))
  /\ Forall JS.is_int16 (data f).

(** The events that leave the promise of [connect] alone. *)
Definition settles_nothing (e : Event) : Prop :=
  e <> SocketOpen /\ e <> SocketError /\ e <> ConnectTimer.


(** The frames of all streams among the events, in order. *)
Fixpoint stream_frames (evs : list RoomEvent) : list AudioFrame :=
  match evs with
  | [] => []
  | StreamFrame _ frame _ :: evs' => frame :: stream_frames evs'
  | _ :: evs' => stream_frames evs'
  end.

(** A frame of a stream other than [k]. *)
Definition frame_of_other_stream (k : nat) (e : RoomEvent) : Prop :=
  match e with
  | StreamFrame j _ _ => j <> k
  | _ => False
  end.

(** ** The token server *)

(** A value of a parsed JSON body. *)
#[local] Unset Elimination Schemes.
Inductive JsonValue : Type :=
  | JNull
  | JBool (b : bool)
  | JNumber (q : Q)
  | JString (s : string)
  | JArray (items : list JsonValue)
  | JObject (fields : list (string * JsonValue)).
#[local] Set Elimination Schemes.

(** [!v] is false: a property that is there ([None] stands for
    [undefined]) and is not [null], [false], zero or the empty string. *)
Definition truthy (v : option JsonValue) : bool :=
  match v with
  | None | Some JNull => false
  | Some (JBool b) => b
  | Some (JNumber q) => negb (Qeq_bool q 0)
  | Some (JString s) => negb (String.eqb s "")
  | Some (JArray _) | Some (JObject _) => true
  end.

Inductive ResponseBody : Type :=
  | error_body (error : string)
  | token_body (token url : string) (identity roomName : JsonValue).

Record Response : Type := mkResponse {
  status : Z;
  body : ResponseBody
}.

(** The handler of [POST /api/token].  [req_body] is [req.body]: the
    properties of the parsed object, or [None] when there is none (the
    destructuring then throws, which the [catch] answers).  [toJwt] stands
    for building the [AccessToken] with its grant and signing it; it is
    the only part that depends on the libraries, and it may throw. *)
Definition post_api_token (LIVEKIT_URL : string)
    (toJwt : JsonValue -> JsonValue -> completion string)
    (req_body : option (gmap string JsonValue)) : Response :=
  match req_body with
  | None => mkResponse 500 (error_body "Failed to generate token")
  | Some properties =>
      let identity := properties !! "identity" in
      let roomName := properties !! "roomName" in
      if negb (truthy identity) || negb (truthy roomName) then
        mkResponse 400 (error_body "identity and roomName are required")
      else
        match identity, roomName with
        | Some i, Some r =>
            match toJwt i r with
            | Normal jwt => mkResponse 200 (token_body jwt LIVEKIT_URL i r)
            | Throw _ => mkResponse 500 (error_body "Failed to generate token")
            end
        | _, _ =>
            mkResponse 400 (error_body "identity and roomName are required")
        end
  end.

(** * Properties *)

Local Close Scope string_scope.

(** ** Loops over typed arrays *)

Lemma for_loop_fill (n : nat) (g : nat -> Z) (init : list Z) :
  length init = n ->
  JS.for_loop n (fun i a => <[i := g i]> a) init = map g (seq 0 n).
Proof.
  intros Hlen. unfold JS.for_loop.
  assert (Hk : forall k, (k <= n)%nat ->
            fold_left (fun acc i => <[i := g i]> acc) (seq 0 k) init
            = map g (seq 0 k) ++ drop k init).
  { induction k as [|k IH]; intros Hle.
    - simpl. now rewrite drop_0.
    - rewrite seq_S, fold_left_app, IH by lia. simpl.
      rewrite map_app. simpl.
      destruct (lookup_lt_is_Some_2 init k) as [y Hy]; [lia|].
      rewrite (drop_S _ _ _ Hy).
      rewrite insert_app_r_alt by (rewrite length_map, length_seq; lia).
      rewrite length_map, length_seq, Nat.sub_diag. simpl.
      now rewrite <- app_assoc. }
  rewrite Hk by lia. rewrite drop_ge by lia. apply app_nil_r.
Qed.

Lemma ToInt16_id (z : Z) : JS.is_int16 z -> JS.ToInt16 z = z.
Proof.
  unfold JS.is_int16, JS.ToInt16. intros H.
  rewrite Z.mod_small by lia. lia.
Qed.

Lemma ToInt16_range (z : Z) : JS.is_int16 (JS.ToInt16 z).
Proof.
  unfold JS.is_int16, JS.ToInt16.
  pose proof (Z.mod_pos_bound (z + 32768) 65536 ltac:(lia)). lia.
Qed.

(** ** [resample48to24] *)

Lemma resample48to24_unfold (inputBuffer : list Z) :
  AudioConverter.resample48to24 inputBuffer
  = map (fun i => JS.ToInt16 (JS.get inputBuffer (i * 2)))
      (seq 0 (length inputBuffer / 2)).
Proof.
  unfold AudioConverter.resample48to24, JS.set.
  apply (for_loop_fill _ (fun i => JS.ToInt16 (JS.get inputBuffer (i * 2)))).
  apply length_replicate.
Qed.

Lemma half_index_in_range (n i : nat) : (i < n / 2 -> i * 2 < n)%nat.
Proof.
  intros H. pose proof (Nat.div_mod_eq n 2).
  pose proof (Nat.mod_upper_bound n 2). lia.
Qed.

(** C5. Halving the rate keeps every second sample: the output of
    [resample48to24] has [floor(n / 2)] elements for an input of [n]
    samples, and its element [i] is the input's element [2 i], so the
    output is [input[0], input[2], input[4], ...]. *)
Theorem resample48to24_decimates (inputBuffer : list Z) :
  Forall JS.is_int16 inputBuffer ->
  length (AudioConverter.resample48to24 inputBuffer)
    = (length inputBuffer / 2)%nat
  /\ forall i : nat, (i < length inputBuffer / 2)%nat ->
       AudioConverter.resample48to24 inputBuffer !! i
       = inputBuffer !! (2 * i)%nat.
Proof.
  intros Hin. rewrite resample48to24_unfold. split.
  - now rewrite length_map, length_seq.
  - intros i Hi.
    rewrite list_lookup_fmap.
    assert (Hseq : seq 0 (length inputBuffer / 2) !! i = Some i).
    { apply lookup_seq. split; [reflexivity | exact Hi]. }
    rewrite Hseq.
    pose proof (half_index_in_range _ _ Hi) as Hlt.
    destruct (lookup_lt_is_Some_2 inputBuffer (i * 2)) as [v Hv]; [exact Hlt|].
    replace (2 * i)%nat with (i * 2)%nat by lia.
    cbn [fmap option_fmap option_map]. unfold JS.get. rewrite Hv.
    cbn [default from_option id].
    f_equal. apply ToInt16_id.
    rewrite Forall_lookup in Hin. exact (Hin _ _ Hv).
Qed.

Lemma resample48to24_decimates_witness :
  Forall JS.is_int16 [10; -20; 30; -40; 50]
  /\ AudioConverter.resample48to24 [10; -20; 30; -40; 50] !! 1%nat = Some 30.
Proof.
  assert (H : Forall JS.is_int16 [10; -20; 30; -40; 50]).
  { repeat constructor; unfold JS.is_int16; lia. }
  split; [exact H|].
  exact (proj2 (resample48to24_decimates [10; -20; 30; -40; 50] H) 1%nat
           ltac:(simpl; lia)).
Defined.

(** ** [float32ToInt16] *)

Lemma Qtrunc_scaled_neg (q : Q) :
  (-1 <= q)%Q -> (q < 0)%Q ->
  -32768 <= JS.Qtrunc (q * inject_Z 32768) <= 0.
Proof.
  destruct q as [a b]. unfold Qle, Qlt, JS.Qtrunc. simpl.
  rewrite Pos.mul_1_r. intros H1 H2.
  Z.to_euclidean_division_equations. nia.
Qed.

Lemma Qtrunc_scaled_pos (q : Q) :
  (0 <= q)%Q -> (q <= 1)%Q ->
  0 <= JS.Qtrunc (q * inject_Z 32767) <= 32767.
Proof.
  destruct q as [a b]. unfold Qle, Qlt, JS.Qtrunc. simpl.
  rewrite Pos.mul_1_r. intros H1 H2.
  Z.to_euclidean_division_equations. nia.
Qed.

Lemma Qltb_true (a b : Q) : JS.Qltb a b = true -> (a < b)%Q.
Proof.
  unfold JS.Qltb. intros H. apply negb_true_iff in H.
  apply Qnot_le_lt. intros Hle. apply Qle_bool_iff in Hle. congruence.
Qed.

Lemma Qltb_false (a b : Q) : JS.Qltb a b = false -> (b <= a)%Q.
Proof.
  unfold JS.Qltb. intros H. apply negb_false_iff in H.
  now apply Qle_bool_iff.
Qed.

(** The clamped number is [NaN] or a rational of [[-1, 1]]. *)
Lemma clamp_cases (x : JS.number) :
  AudioConverter.clamp x = JS.NaN
  \/ exists q, AudioConverter.clamp x = JS.Finite q /\ (-1 <= q)%Q /\ (q <= 1)%Q.
Proof.
  destruct x as [| | |q].
  - now left.
  - right. exists (inject_Z (-1)). split; [reflexivity|]. split; discriminate.
  - right. exists (inject_Z 1). split; [reflexivity|]. split; discriminate.
  - right. unfold AudioConverter.clamp, JS.Math_min, JS.of_Z.
    cbn [JS.lt].
    destruct (JS.Qltb q (inject_Z 1)) eqn:H1.
    + unfold JS.Math_max. cbn [JS.lt].
      destruct (JS.Qltb (inject_Z (-1)) q) eqn:H2.
      * exists q. split; [reflexivity|]. split.
        -- apply Qlt_le_weak. now apply Qltb_true.
        -- apply Qlt_le_weak. now apply Qltb_true.
      * exists (inject_Z (-1)). split; [reflexivity|]. split; discriminate.
    + exists (inject_Z 1). split; [reflexivity|]. split; discriminate.
Qed.

(** Scaling a clamped number stays within the 16 bit range, so the store
    into the [Int16Array] never wraps. *)
Lemma scaled_in_range (x : JS.number) :
  JS.is_int16 (JS.truncate (AudioConverter.scale (AudioConverter.clamp x))).
Proof.
  destruct (clamp_cases x) as [-> | (q & -> & Hlo & Hhi)].
  - unfold JS.is_int16. simpl. lia.
  - unfold AudioConverter.scale, JS.of_Z. cbn [JS.lt].
    destruct (JS.Qltb q (inject_Z 0)) eqn:H0; cbn [JS.mul JS.truncate].
    + apply Qltb_true in H0.
      pose proof (Qtrunc_scaled_neg q Hlo H0). unfold JS.is_int16. lia.
    + apply Qltb_false in H0.
      pose proof (Qtrunc_scaled_pos q H0 Hhi). unfold JS.is_int16. lia.
Qed.

Lemma map_indices {A B : Type} (d : A) (f : A -> B) (l : list A) :
  map (fun i => f (default d (l !! i))) (seq 0 (length l)) = map f l.
Proof.
  apply list_eq. intros i. rewrite !list_lookup_fmap.
  destruct (l !! i) as [x|] eqn:Hx.
  - assert (Hs : seq 0 (length l) !! i = Some i).
    { apply lookup_seq. split; [reflexivity|]. now apply lookup_lt_Some in Hx. }
    rewrite Hs. cbn [fmap option_fmap option_map]. now rewrite Hx.
  - assert (Hs : seq 0 (length l) !! i = None).
    { apply lookup_ge_None. rewrite length_seq. now apply lookup_ge_None. }
    now rewrite Hs.
Qed.

Lemma float32ToInt16_unfold (float32Array : list JS.number) :
  AudioConverter.float32ToInt16 float32Array
  = map (fun x => JS.ToInt16
                    (JS.truncate (AudioConverter.scale (AudioConverter.clamp x))))
      float32Array.
Proof.
  unfold AudioConverter.float32ToInt16, JS.set_number, JS.set.
  rewrite (for_loop_fill _
    (fun i => JS.ToInt16 (JS.truncate (AudioConverter.scale
       (AudioConverter.clamp (default JS.NaN (float32Array !! i)))))))
    by apply length_replicate.
  apply (map_indices JS.NaN
    (fun x => JS.ToInt16
                (JS.truncate (AudioConverter.scale (AudioConverter.clamp x))))).
Qed.

(** C9. Every element [float32ToInt16] writes lies in [-32768, 32767], and
    it is the truncated scaled sample itself: clamping to [[-1, 1]] and
    scaling by 32768 below zero and by 32767 otherwise keeps the value in
    range, so the 16 bit store never wraps.  A [NaN] sample is written as 0. *)
Theorem float32ToInt16_in_range (float32Array : list JS.number) :
  Forall2
    (fun x v =>
       v = JS.truncate (AudioConverter.scale (AudioConverter.clamp x))
       /\ JS.is_int16 v)
    float32Array (AudioConverter.float32ToInt16 float32Array).
Proof.
  rewrite float32ToInt16_unfold.
  induction float32Array as [|x xs IH]; simpl; constructor; [|exact IH].
  pose proof (scaled_in_range x) as Hr.
  rewrite (ToInt16_id _ Hr). split; [reflexivity | exact Hr].
Qed.

Example float32ToInt16_samples :
  AudioConverter.float32ToInt16
    [JS.Finite (1 # 2); JS.Finite (-3); JS.NaN; JS.PosInfinity; JS.Finite (-1 # 4)]
  = [16383; -32768; 0; 32767; -8192].
Proof. vm_compute. reflexivity. Qed.

(** ** Octets of 16 bit samples *)

Lemma octets_of_int16_inv (v : Z) (rest : list Z) :
  JS.is_int16 v ->
  Buffer.int16_pairs (Buffer.octets_of_int16 v ++ rest)
  = v :: Buffer.int16_pairs rest.
Proof.
  unfold JS.is_int16, Buffer.octets_of_int16. intros Hv.
  cbn [app Buffer.int16_pairs]. f_equal.
  unfold JS.ToInt16. Z.div_mod_to_equations. lia.
Qed.

Lemma int16_pairs_from_Int16Array (a : list Z) :
  Forall JS.is_int16 a ->
  Buffer.int16_pairs (Buffer.from_Int16Array a) = a.
Proof.
  induction 1 as [|v a Hv _ IH]; [reflexivity|].
  unfold Buffer.from_Int16Array in *. cbn [flat_map].
  rewrite octets_of_int16_inv by exact Hv. now rewrite IH.
Qed.

Lemma length_from_Int16Array (a : list Z) :
  length (Buffer.from_Int16Array a) = (2 * length a)%nat.
Proof.
  induction a as [|v a IH]; [reflexivity|].
  unfold Buffer.from_Int16Array in *. cbn [flat_map].
  rewrite length_app, IH. simpl. lia.
Qed.

Lemma from_Int16Array_octets (a : list Z) :
  Forall JS.is_octet (Buffer.from_Int16Array a).
Proof.
  induction a as [|v a IH]; [constructor|].
  unfold Buffer.from_Int16Array in *. cbn [flat_map].
  apply Forall_app. split; [|exact IH].
  unfold Buffer.octets_of_int16, JS.is_octet.
  repeat constructor; Z.div_mod_to_equations; lia.
Qed.

Lemma Int16Array_view_from_Int16Array (a : list Z) :
  Forall JS.is_int16 a ->
  Buffer.Int16Array_view (Buffer.from_Int16Array a)
    (Buffer.ToIndex_half (length (Buffer.from_Int16Array a))) = a.
Proof.
  intros Ha. unfold Buffer.Int16Array_view, Buffer.ToIndex_half.
  rewrite int16_pairs_from_Int16Array by exact Ha.
  rewrite length_from_Int16Array.
  replace (2 * length a / 2)%nat with (length a)
    by (rewrite Nat.mul_comm, Nat.div_mul; lia).
  apply firstn_all.
Qed.

(** ** The base64 codec *)

Lemma base64_table :
  forallb
    (fun n =>
       let v := Z.of_nat n in
       negb (Ascii.eqb (Buffer.base64_char v) Buffer.pad)
       && match Buffer.unbase64 (Buffer.base64_char v) with
          | Some u => u =? v
          | None => false
          end)
    (seq 0 64) = true.
Proof. vm_compute. reflexivity. Qed.

Lemma sextets_base64_char (v : Z) (cs : list ascii) :
  0 <= v < 64 ->
  Buffer.sextets (Buffer.base64_char v :: cs) = v :: Buffer.sextets cs.
Proof.
  intros Hv.
  pose proof base64_table as Ht. rewrite forallb_forall in Ht.
  specialize (Ht (Z.to_nat v)). cbv zeta in Ht.
  rewrite Z2Nat.id in Ht by lia.
  assert (Hin : In (Z.to_nat v) (seq 0 64)) by (apply in_seq; lia).
  apply Ht in Hin. apply andb_true_iff in Hin as [Hpad Hval].
  apply negb_true_iff in Hpad.
  cbn [Buffer.sextets]. rewrite Hpad.
  destruct (Buffer.unbase64 (Buffer.base64_char v)) as [u|]; [|discriminate].
  apply Z.eqb_eq in Hval. now subst u.
Qed.

Lemma sextets_pad (cs : list ascii) : Buffer.sextets (Buffer.pad :: cs) = [].
Proof. reflexivity. Qed.

Lemma list_ind3 {A : Type} (P : list A -> Prop) :
  P [] -> (forall x, P [x]) -> (forall x y, P [x; y]) ->
  (forall x y z l, P l -> P (x :: y :: z :: l)) ->
  forall l, P l.
Proof.
  intros H0 H1 H2 H3 l.
  enough (H : P l /\ (forall x, P (x :: l)) /\ (forall x y, P (x :: y :: l)))
    by apply H.
  induction l as [|a l (IH0 & IH1 & IH2)].
  - repeat split; auto.
  - repeat split; auto.
Qed.

Ltac sextet_bounds :=
  unfold JS.is_octet in *; Z.div_mod_to_equations; lia.

Lemma octets_sextets_encode (b : list Z) :
  Forall JS.is_octet b ->
  Buffer.octets (Buffer.sextets (Buffer.encode b)) = b.
Proof.
  induction b as [| x | x y | x y z rest IH] using list_ind3; intros Hb.
  - reflexivity.
  - apply Forall_cons in Hb as [Hx _].
    cbn [Buffer.encode].
    rewrite !sextets_base64_char, sextets_pad by sextet_bounds.
    cbn [Buffer.octets]. f_equal. sextet_bounds.
  - apply Forall_cons in Hb as [Hx Hb]. apply Forall_cons in Hb as [Hy _].
    cbn [Buffer.encode].
    rewrite !sextets_base64_char, sextets_pad by sextet_bounds.
    cbn [Buffer.octets]. repeat f_equal; sextet_bounds.
  - apply Forall_cons in Hb as [Hx Hb]. apply Forall_cons in Hb as [Hy Hb].
    apply Forall_cons in Hb as [Hz Hb].
    cbn [Buffer.encode].
    rewrite !sextets_base64_char by sextet_bounds.
    cbn [Buffer.octets]. rewrite IH by exact Hb.
    repeat f_equal; sextet_bounds.
Qed.

(** Decoding the base64 text of a buffer gives the buffer back. *)
Lemma from_base64_toString_base64 (b : list Z) :
  Forall JS.is_octet b ->
  Buffer.from_base64 (Buffer.toString_base64 b) = b.
Proof.
  intros Hb. unfold Buffer.from_base64, Buffer.toString_base64.
  rewrite list_ascii_of_string_of_list_ascii.
  now apply octets_sextets_encode.
Qed.

Example base64_of_three_octets :
  Buffer.toString_base64 [77; 97; 110] = "TWFu"%string
  /\ Buffer.toString_base64 [77; 97] = "TWE="%string
  /\ Buffer.from_base64 "TWE="%string = [77; 97].
Proof. repeat split; vm_compute; reflexivity. Qed.

(** ** From the wire to a frame and back *)

Lemma list_ind2 {A : Type} (P : list A -> Prop) :
  P [] -> (forall x, P [x]) -> (forall x y l, P l -> P (x :: y :: l)) ->
  forall l, P l.
Proof.
  intros H0 H1 H2 l.
  enough (H : P l /\ forall x, P (x :: l)) by apply H.
  induction l as [|a l [IH0 IH1]]; split; auto.
Qed.

Lemma length_int16_pairs (b : list Z) :
  length (Buffer.int16_pairs b) = (length b / 2)%nat.
Proof.
  induction b as [| x | x y l IH] using list_ind2; [reflexivity..|].
  cbn [Buffer.int16_pairs length]. rewrite IH.
  change (S (S (length l))) with (1 * 2 + length l)%nat.
  rewrite Nat.div_add_l by lia. lia.
Qed.

(** The frame built from a buffer: one sample for each whole pair of
    octets; the last octet of an odd buffer is not read. *)
Lemma frameOfBuffer_eq (pcm16Buffer : list Z) :
  frameOfBuffer pcm16Buffer
  = Normal (mkAudioFrame (Buffer.int16_pairs pcm16Buffer) SAMPLE_RATE
              NUM_CHANNELS (Z.of_nat (length pcm16Buffer / 2))).
Proof.
  unfold frameOfBuffer, Buffer.Int16Array_view, Buffer.ToIndex_half.
  rewrite <- length_int16_pairs, firstn_all. reflexivity.
Qed.

(** The constructor of the view at any offset: at an even one it builds
    the frame of [frameOfBuffer], at an odd one it throws. *)
Lemma frameOfBufferAt_aligned (byteOffset : nat) (pcm16Buffer : list Z) :
  Nat.even byteOffset = true ->
  frameOfBufferAt byteOffset pcm16Buffer = frameOfBuffer pcm16Buffer.
Proof. intros H. unfold frameOfBufferAt. now rewrite H. Qed.

Lemma frameOfBufferAt_misaligned (byteOffset : nat) (pcm16Buffer : list Z) :
  Nat.even byteOffset = false ->
  exists message : string,
    frameOfBufferAt byteOffset pcm16Buffer = Throw message.
Proof. intros H. unfold frameOfBufferAt. rewrite H. now eexists. Qed.

(** C3, as the code has it.  The decoder builds every frame at 24000 Hz
    with one channel, so the round trip holds for the frames of that
    format: for a frame [f] at 24000 Hz, mono, whose samples are 16 bit
    values and whose sample count is the length of its data (even or odd),
    decoding the base64 text of its samples gives [f] back. *)
Theorem wire_roundtrip_24k_mono (f : AudioFrame) :
  Forall JS.is_int16 (data f) ->
  sampleRate f = SAMPLE_RATE ->
  numChannels f = NUM_CHANNELS ->
  samplesPerChannel f = Z.of_nat (length (data f)) ->
  decodeDelta (AudioConverter.toBase64 (data f)) = Normal f.
Proof.
  intros Hdata Hrate Hchan Hcount.
  unfold decodeDelta, AudioConverter.toBase64.
  rewrite from_base64_toString_base64 by apply from_Int16Array_octets.
  unfold frameOfBuffer.
  rewrite Int16Array_view_from_Int16Array by exact Hdata.
  destruct f as [d r c n]. simpl in *. now subst.
Qed.

Lemma wire_roundtrip_24k_mono_witness :
  decodeDelta (AudioConverter.toBase64 [258; -2; 32767; -32768])
  = Normal (mkAudioFrame [258; -2; 32767; -32768] 24000 1 4).
Proof.
  apply (wire_roundtrip_24k_mono (mkAudioFrame [258; -2; 32767; -32768] 24000 1 4)).
  - repeat constructor; unfold JS.is_int16; simpl; lia.
  - reflexivity.
  - reflexivity.
  - reflexivity.
Defined.

(** C3 as stated fails for a frame of another rate: a valid 48 kHz frame
    of two samples comes back as a 24 kHz frame. *)
Lemma wire_roundtrip_fails_at_48k :
  Forall JS.is_int16 (data (mkAudioFrame [1; 2] 48000 1 2))
  /\ Z.even (samplesPerChannel (mkAudioFrame [1; 2] 48000 1 2)) = true
  /\ decodeDelta (AudioConverter.toBase64 (data (mkAudioFrame [1; 2] 48000 1 2)))
     = Normal (mkAudioFrame [1; 2] 24000 1 2)
  /\ decodeDelta (AudioConverter.toBase64 (data (mkAudioFrame [1; 2] 48000 1 2)))
     <> Normal (mkAudioFrame [1; 2] 48000 1 2).
Proof.
  split; [repeat constructor; unfold JS.is_int16; simpl; lia|].
  split; [reflexivity|].
  assert (H : decodeDelta (AudioConverter.toBase64 [1; 2])
              = Normal (mkAudioFrame [1; 2] 24000 1 2))
    by (vm_compute; reflexivity).
  simpl data. rewrite H. split; [reflexivity | discriminate].
Qed.

(** ** The conversion never fails *)

(** C6, as the code has it.  [convertForOpenAI] never reads the sample
    rate and has no failing path: whatever rate stands in the frame, the
    conversion completes normally, with the text of the decimated data. *)
Theorem convertForOpenAI_ignores_rate (f : AudioFrame) (rate : Z) :
  exists base64Audio : string,
    AudioConverter.convertForOpenAI
      (mkAudioFrame (data f) rate (numChannels f) (samplesPerChannel f))
    = Normal base64Audio
    /\ AudioConverter.convertForOpenAI f = Normal base64Audio
    /\ Buffer.from_base64 base64Audio
       = Buffer.from_Int16Array (AudioConverter.resample48to24 (data f)).
Proof.
  exists (AudioConverter.toBase64 (AudioConverter.resample48to24 (data f))).
  repeat split.
  unfold AudioConverter.toBase64.
  apply from_base64_toString_base64, from_Int16Array_octets.
Qed.

(** C6 as stated fails: a frame at 24000 Hz, whose ratio to the target
    rate of 24000 Hz is 1, is converted without any error. *)
Lemma convertForOpenAI_accepts_ratio_1 :
  sampleRate (mkAudioFrame [1; 2] 24000 1 2) <> 2 * 24000
  /\ AudioConverter.convertForOpenAI (mkAudioFrame [1; 2] 24000 1 2)
     = Normal "AQA="%string
  /\ forall message : string,
       AudioConverter.convertForOpenAI (mkAudioFrame [1; 2] 24000 1 2)
       <> Throw message.
Proof.
  split; [simpl; lia|].
  assert (H : AudioConverter.convertForOpenAI (mkAudioFrame [1; 2] 24000 1 2)
              = Normal "AQA="%string) by (vm_compute; reflexivity).
  rewrite H. split; [reflexivity | discriminate].
Qed.

(** ** [sendAudio] *)

Lemma wire_console_out (l : Line) (w : World) : wire (console_out l w) = wire w.
Proof. reflexivity. Qed.

Lemma wire_send (event : ClientEvent) (w : World) :
  wire (send event w)
  = match ws (openai w) with
    | Some OPEN => wire w ++ [event]
    | _ => wire w
    end.
Proof.
  unfold send. destruct (ws (openai w)) as [[]|]; reflexivity.
Qed.

Lemma openai_send (event : ClientEvent) (w : World) :
  openai (send event w) = openai w.
Proof.
  unfold send. destruct (ws (openai w)) as [[]|]; reflexivity.
Qed.

Lemma wire_sendAudio_connected (base64Audio : string) (w : World) :
  connected (openai w) = true ->
  wire (sendAudio base64Audio w)
  = wire (send (input_audio_buffer_append base64Audio) w).
Proof.
  intros Hc. unfold sendAudio. rewrite Hc. cbn [negb].
  match goal with |- context [if ?c then _ else _] => destruct c end;
    reflexivity.
Qed.

(** C1, as the code has it.  [sendAudio] is gated by the [connected]
    flag, not by a protocol state.  While the flag is false the call only
    prints its warning: no wire event, no counter moves.  While the flag is
    true and the socket is [OPEN] the call transmits exactly one event,
    [input_audio_buffer.append] with the given audio.  The function has no
    throwing path in either case. *)
Theorem sendAudio_gated_by_connected (base64Audio : string) (w : World) :
  (connected (openai w) = false ->
     sendAudio base64Audio w = console_out not_connected_warning w
     /\ wire (sendAudio base64Audio w) = wire w)
  /\ (connected (openai w) = true -> ws (openai w) = Some OPEN ->
        wire (sendAudio base64Audio w)
        = wire w ++ [input_audio_buffer_append base64Audio]).
Proof.
  split.
  - intros Hc. unfold sendAudio. rewrite Hc. split; reflexivity.
  - intros Hc Hopen.
    rewrite wire_sendAudio_connected, wire_send, Hopen by exact Hc.
    reflexivity.
Qed.

Lemma sendAudio_gated_by_connected_witness :
  wire (sendAudio "AAAA" (connect new_AIAgent)) = []
  /\ wire (sendAudio "AAAA" (handle SocketOpen (connect new_AIAgent)))
     = [session_update; input_audio_buffer_append "AAAA"].
Proof.
  split.
  - exact (proj2 (proj1 (sendAudio_gated_by_connected "AAAA"
                           (connect new_AIAgent)) eq_refl)).
  - exact (proj2 (sendAudio_gated_by_connected "AAAA"
                    (handle SocketOpen (connect new_AIAgent)))
             eq_refl eq_refl).
Defined.

(** C1 as stated fails.  After [connect] and the socket's [open] event no
    [session.created] has arrived, so the protocol state of the
    specification is still [Connecting]; the flag is already true and
    [sendAudio] transmits an event.  The same holds in [AwaitingConfig]. *)
Lemma sendAudio_transmits_while_Connecting :
  Spec.state_after [Connect; Deliver SocketOpen] = Spec.Connecting
  /\ wire (run [Connect; Deliver SocketOpen; SendAudio "AAAA"] new_AIAgent)
     = wire (run [Connect; Deliver SocketOpen] new_AIAgent)
       ++ [input_audio_buffer_append "AAAA"]
  /\ Spec.state_after
       [Connect; Deliver SocketOpen;
        Deliver (SocketMessage (session_created "s1" "gpt-4o-realtime"))]
     = Spec.AwaitingConfig
  /\ wire (run [Connect; Deliver SocketOpen;
                Deliver (SocketMessage (session_created "s1" "gpt-4o-realtime"));
                SendAudio "AAAA"] new_AIAgent)
     = [session_update; input_audio_buffer_append "AAAA"].
Proof. repeat split. Qed.

(** C10. With the [connected] flag true, every [sendAudio] adds exactly one
    to [audioChunksSent], and when the socket is not [OPEN] nothing is
    transmitted; so there are runs after which the counter exceeds the
    number of append events on the wire (the socket has begun its closing
    handshake and the [close] event has not been delivered yet). *)
Theorem sendAudio_counts_every_call :
  (forall (base64Audio : string) (w : World),
      connected (openai w) = true ->
      audioChunksSent (openai (sendAudio base64Audio w))
      = (audioChunksSent (openai w) + 1)%N
      /\ (ws (openai w) <> Some OPEN ->
          wire (sendAudio base64Audio w) = wire w))
  /\ exists acts : list Action,
       (N.of_nat (length (appended_audio (wire (run acts new_AIAgent))))
        < audioChunksSent (openai (run acts new_AIAgent)))%N.
Proof.
  split.
  - intros base64Audio w Hc. split.
    + unfold sendAudio. rewrite Hc. cbn [negb].
      match goal with |- context [if ?c then _ else _] => destruct c end;
        cbn; rewrite openai_send; reflexivity.
    + intros Hno. rewrite wire_sendAudio_connected, wire_send by exact Hc.
      destruct (ws (openai w)) as [[]|]; congruence.
  - exists [Connect; Deliver SocketOpen; Deliver SocketClosing; SendAudio "AAAA"].
    vm_compute. reflexivity.
Qed.

Lemma sendAudio_counts_every_call_witness :
  connected (openai (run [Connect; Deliver SocketOpen; Deliver SocketClosing]
                       new_AIAgent)) = true
  /\ audioChunksSent
       (openai (run [Connect; Deliver SocketOpen; Deliver SocketClosing;
                     SendAudio "AAAA"] new_AIAgent)) = 1%N
  /\ wire (run [Connect; Deliver SocketOpen; Deliver SocketClosing;
                SendAudio "AAAA"] new_AIAgent) = [session_update].
Proof.
  split; [reflexivity|].
  destruct (proj1 sendAudio_counts_every_call "AAAA"%string
              (run [Connect; Deliver SocketOpen; Deliver SocketClosing]
                 new_AIAgent) eq_refl) as [Hcount Hwire].
  split.
  - exact Hcount.
  - exact (Hwire ltac:(discriminate)).
Defined.

(** A whole session: the socket opens, the session is created and
    updated, and one frame of the subscribed track is forwarded; the wire
    holds the configuration and one append event with the text of the
    decimated frame. *)
Example full_session_sends_one_append :
  wire
    (run [Connect; Deliver SocketOpen;
          Deliver (SocketMessage (session_created "s1" "gpt-4o-realtime"));
          Deliver (SocketMessage session_updated);
          Deliver (TrackFrame (mkAudioFrame [1; 2; 3; 4] 48000 1 4))]
       new_AIAgent)
  = [session_update; input_audio_buffer_append "AQADAA=="].
Proof. vm_compute. reflexivity. Qed.

(** ** The playback path *)

Lemma Qltb_iff (a b : Q) : JS.Qltb a b = true <-> (a < b)%Q.
Proof.
  split; [apply Qltb_true|]. intros Hlt.
  destruct (JS.Qltb a b) eqn:H; [reflexivity|].
  apply Qltb_false in H. now apply Qle_not_lt in H.
Qed.

Lemma Qltb_false_iff (a b : Q) : JS.Qltb a b = false <-> (b <= a)%Q.
Proof.
  split; [apply Qltb_false|]. intros Hle.
  destruct (JS.Qltb a b) eqn:H; [|reflexivity].
  apply Qltb_true in H. now apply Qle_not_lt in Hle.
Qed.

Lemma playAudioInRoom_publish_eq (pcm16Buffer : list Z) (w : World)
    (src : AudioSource) :
  audioSource (agent w) = Some src ->
  playAudioInRoom_publish pcm16Buffer w
  = with_capturing (fun l => l ++ [frameOf pcm16Buffer])
      (with_agent
         (set_audioSource (Sink.captureFrame (frameOf pcm16Buffer) src)) w).
Proof.
  intros Hsrc. unfold playAudioInRoom_publish.
  rewrite frameOfBuffer_eq, Hsrc. reflexivity.
Qed.

Lemma published_publish (pcm16Buffer : list Z) (w : World) (src : AudioSource) :
  audioSource (agent w) = Some src ->
  published (playAudioInRoom_publish pcm16Buffer w)
  = published w ++ [frameOf pcm16Buffer].
Proof.
  intros Hsrc. rewrite (playAudioInRoom_publish_eq _ _ _ Hsrc).
  unfold published. simpl. now rewrite Hsrc.
Qed.

Lemma publish_keeps_source (pcm16Buffer : list Z) (w : World) (src : AudioSource) :
  audioSource (agent w) = Some src ->
  audioSource (agent (playAudioInRoom_publish pcm16Buffer w))
  = Some (Sink.captureFrame (frameOf pcm16Buffer) src).
Proof.
  intros Hsrc. now rewrite (playAudioInRoom_publish_eq _ _ _ Hsrc).
Qed.

(** The calls resumed together hand their frames over in the order in
    which they were parked. *)
Lemma published_resumed (parked : list (list Z)) (w : World) (src : AudioSource) :
  audioSource (agent w) = Some src ->
  published
    (fold_left (fun w pcm16Buffer => playAudioInRoom_publish pcm16Buffer w)
       parked w)
  = published w ++ map frameOf parked.
Proof.
  revert w src. induction parked as [|b parked IH]; intros w src Hsrc.
  - simpl. now rewrite app_nil_r.
  - cbn [fold_left map].
    rewrite (IH _ _ (publish_keeps_source b w src Hsrc)).
    rewrite (published_publish _ _ _ Hsrc), <- app_assoc. reflexivity.
Qed.

Lemma published_PlayoutDone (w : World) (src : AudioSource) :
  audioSource (agent w) = Some src ->
  published (handle PlayoutDone w) = published w ++ map frameOf (waiting w).
Proof.
  intros Hsrc. cbn [handle].
  rewrite (published_resumed _ _ (Sink.playedOut src)).
  - unfold published. simpl. unfold on_agent_source. now rewrite Hsrc.
  - simpl. unfold on_agent_source. now rewrite Hsrc.
Qed.

(** C2, as the code has it.  The test is strict: a call parks at
    [waitForPlayout] exactly when the queued duration exceeds 1000 ms; its
    frame is then handed over only when playout is signalled, after the
    frames parked before it.  At 1000 ms or less the frame is handed over
    at once.  So of four 500 ms frames enqueued without drain the first
    three pass and the fourth is the one that waits. *)
Theorem playAudioInRoom_watermark (pcm16Buffer : list Z) (w : World)
    (src : AudioSource) :
  audioSource (agent w) = Some src ->
  ((MAX_QUEUE_DURATION_MS < queuedDuration src)%Q ->
     waiting (playAudioInRoom pcm16Buffer w) = waiting w ++ [pcm16Buffer]
     /\ published (playAudioInRoom pcm16Buffer w) = published w
     /\ published (handle PlayoutDone (playAudioInRoom pcm16Buffer w))
        = published w ++ map frameOf (waiting w ++ [pcm16Buffer]))
  /\ ((queuedDuration src <= MAX_QUEUE_DURATION_MS)%Q ->
      waiting (playAudioInRoom pcm16Buffer w) = waiting w
      /\ published (playAudioInRoom pcm16Buffer w)
         = published w ++ [frameOf pcm16Buffer]).
Proof.
  intros Hsrc. split.
  - intros Hq. apply Qltb_iff in Hq.
    assert (Hpark : playAudioInRoom pcm16Buffer w
                    = with_waiting (fun l => l ++ [pcm16Buffer]) w).
    { unfold playAudioInRoom. now rewrite Hsrc, Hq. }
    rewrite Hpark. repeat split.
    now rewrite (published_PlayoutDone _ src).
  - intros Hq. apply Qltb_false_iff in Hq.
    assert (Hgo : playAudioInRoom pcm16Buffer w
                  = playAudioInRoom_publish pcm16Buffer w).
    { unfold playAudioInRoom. now rewrite Hsrc, Hq. }
    rewrite Hgo. split.
    + now rewrite (playAudioInRoom_publish_eq _ _ _ Hsrc).
    + now apply published_publish with (src := src).
Qed.

Lemma playAudioInRoom_watermark_witness :
  waiting
    (playAudioInRoom (silence 500)
       (run [SetupAudioPublishing; PlayAudioInRoom (silence 500);
             PlayAudioInRoom (silence 500); PlayAudioInRoom (silence 500)]
          new_AIAgent))
  = waiting
      (run [SetupAudioPublishing; PlayAudioInRoom (silence 500);
            PlayAudioInRoom (silence 500); PlayAudioInRoom (silence 500)]
         new_AIAgent)
    ++ [silence 500].
Proof.
  refine (proj1 (proj1
    (playAudioInRoom_watermark (silence 500)
       (run [SetupAudioPublishing; PlayAudioInRoom (silence 500);
             PlayAudioInRoom (silence 500); PlayAudioInRoom (silence 500)]
          new_AIAgent)
       (mkAudioSource 1500
          [frameOf (silence 500); frameOf (silence 500); frameOf (silence 500)])
       _) _)).
  - vm_compute. reflexivity.
  - vm_compute. reflexivity.
Defined.

(** C2 as stated fails.  With three 500 ms frames and no drain, the third
    call finds exactly 1000 ms queued, which does not exceed the
    watermark: it does not park, and all three frames are handed over. *)
Lemma third_enqueue_is_not_suspended :
  Sink.frameDurationMs (frameOf (silence 500)) = 500%Q
  /\ (option_map queuedDuration
        (audioSource (agent
           (run [SetupAudioPublishing; PlayAudioInRoom (silence 500);
                 PlayAudioInRoom (silence 500)] new_AIAgent))))
     = Some 1000%Q
  /\ waiting
       (run [SetupAudioPublishing; PlayAudioInRoom (silence 500);
             PlayAudioInRoom (silence 500); PlayAudioInRoom (silence 500)]
          new_AIAgent) = []
  /\ published
       (run [SetupAudioPublishing; PlayAudioInRoom (silence 500);
             PlayAudioInRoom (silence 500); PlayAudioInRoom (silence 500)]
          new_AIAgent)
     = [frameOf (silence 500); frameOf (silence 500); frameOf (silence 500)].
Proof. repeat split; vm_compute; reflexivity. Qed.

(** ** What later playback depends on *)

Lemma published_playback (w1 w2 : World) :
  playback w1 = playback w2 -> published w1 = published w2.
Proof.
  unfold playback, published. intros H. injection H as Ha _ _. now rewrite Ha.
Qed.

Lemma playback_send (event : ClientEvent) (w : World) :
  playback (send event w) = playback w.
Proof.
  unfold send. destruct (ws (openai w)) as [[]|]; reflexivity.
Qed.

Lemma playback_sendAudio (base64Audio : string) (w : World) :
  playback (sendAudio base64Audio w) = playback w.
Proof.
  unfold sendAudio. destruct (negb (connected (openai w))); [reflexivity|].
  match goal with |- context [if ?c then _ else _] => destruct c end;
    unfold playback; cbn;
    change (agent (send ?e w), waiting (send ?e w), capturing (send ?e w))
      with (playback (send e w)); now rewrite playback_send.
Qed.

Lemma playback_publish (pcm16Buffer : list Z) (w1 w2 : World) :
  playback w1 = playback w2 ->
  playback (playAudioInRoom_publish pcm16Buffer w1)
  = playback (playAudioInRoom_publish pcm16Buffer w2).
Proof.
  unfold playback. intros H. injection H as Ha Hw Hc.
  unfold playAudioInRoom_publish. rewrite frameOfBuffer_eq, Ha.
  destruct (audioSource (agent w2)); cbn; now rewrite ?Ha, ?Hw, ?Hc.
Qed.

Lemma playback_playAudioInRoom (pcm16Buffer : list Z) (w1 w2 : World) :
  playback w1 = playback w2 ->
  playback (playAudioInRoom pcm16Buffer w1)
  = playback (playAudioInRoom pcm16Buffer w2).
Proof.
  intros H. pose proof (playback_publish pcm16Buffer _ _ H) as Hp.
  unfold playback in H. injection H as Ha Hw Hc.
  unfold playAudioInRoom. rewrite Ha.
  destruct (audioSource (agent w2)) as [src|].
  - destruct (JS.Qltb MAX_QUEUE_DURATION_MS (queuedDuration src)).
    + unfold playback. cbn. now rewrite Ha, Hw, Hc.
    + exact Hp.
  - unfold playback. cbn. now rewrite Ha, Hw, Hc.
Qed.

Lemma playback_resumed (parked : list (list Z)) (w1 w2 : World) :
  playback w1 = playback w2 ->
  playback
    (fold_left (fun w pcm16Buffer => playAudioInRoom_publish pcm16Buffer w)
       parked w1)
  = playback
      (fold_left (fun w pcm16Buffer => playAudioInRoom_publish pcm16Buffer w)
         parked w2).
Proof.
  revert w1 w2. induction parked as [|b parked IH]; intros w1 w2 H.
  - exact H.
  - cbn [fold_left]. apply IH. now apply playback_publish.
Qed.

(** An audio delta leaves a world that differs from the one it found in
    the session's counter and the console only, followed by the call of
    [playAudioInRoom] when there is a source. *)
Lemma handleMessage_delta (delta : string) (w : World) :
  exists w' : World,
    playback w' = playback w
    /\ handleMessage (response_audio_delta delta) w
       = match audioSource (agent w') with
         | Some _ => playAudioInRoom (Buffer.from_base64 delta) w'
         | None => w'
         end.
Proof.
  exists (if (audioChunksReceived
                (openai (with_openai incr_audioChunksReceived w)) <=? 3)%N
          then console_out
                 (console_log "[OPENAI] TEST 4.1: Received audio delta")
                 (with_openai incr_audioChunksReceived w)
          else with_openai incr_audioChunksReceived w).
  split; [|reflexivity].
  destruct (audioChunksReceived
              (openai (with_openai incr_audioChunksReceived w)) <=? 3)%N;
    reflexivity.
Qed.

Lemma playback_handleMessage (message : ServerEvent) (w1 w2 : World) :
  playback w1 = playback w2 ->
  playback (handleMessage message w1) = playback (handleMessage message w2).
Proof.
  intros H. destruct message;
    try (unfold playback in *; cbn; exact H).
  - unfold playback in *. cbn.
    do 2 match goal with |- context [if ?c then _ else _] => destruct c end;
      cbn; exact H.
  - destruct (handleMessage_delta delta w1) as (w1' & H1 & ->).
    destruct (handleMessage_delta delta w2) as (w2' & H2 & ->).
    assert (H' : playback w1' = playback w2') by congruence.
    pose proof (playback_playAudioInRoom (Buffer.from_base64 delta) _ _ H') as Hp.
    assert (Ha : agent w1' = agent w2') by (unfold playback in H'; congruence).
    rewrite Ha.
    destruct (audioSource (agent w2')); [exact Hp | exact H'].
Qed.

Lemma playback_handle (e : Event) (w1 w2 : World) :
  playback w1 = playback w2 ->
  playback (handle e w1) = playback (handle e w2).
Proof.
  intros H. destruct e; cbn [handle].
  - unfold initializeSession.
    change (playback (console_out ?l ?w)) with (playback w).
    rewrite !playback_send. exact H.
  - now apply playback_handleMessage.
  - exact H.
  - exact H.
  - exact H.
  - unfold playback in *. cbn. injection H as Ha Hw Hc. now rewrite Ha, Hw, Hc.
  - assert (Hw : waiting w1 = waiting w2)
      by (unfold playback in H; congruence).
    rewrite Hw. apply playback_resumed.
    unfold playback in *. cbn. injection H as Ha _ Hc. now rewrite Ha, Hc.
  - unfold playback in H. injection H as Ha Hw Hc. rewrite Hc.
    destruct (capturing w2) as [|f rest] eqn:Hcap;
      [unfold playback; congruence|].
    unfold playAudioInRoom_settled. destruct ok.
    + cbn. rewrite Ha.
      repeat match goal with |- context [if ?c then _ else _] => destruct c end;
        unfold playback; cbn; now rewrite Ha, Hw.
    + unfold playback. cbn. now rewrite Ha, Hw.
  - unfold forwardFrame.
    assert (Hs : forall w, playback
              (if connected (openai w)
               then match AudioConverter.convertForOpenAI frame with
                    | Normal base64Audio => sendAudio base64Audio w
                    | Throw _ =>
                        console_out
                          (console_error "[AI-AGENT] Audio conversion error") w
                    end
               else w) = playback w).
    { intros w. destruct (connected (openai w)); [|reflexivity].
      cbn. apply playback_sendAudio. }
    now rewrite !Hs.
  - exact H.
Qed.

Lemma playback_exec (a : Action) (w1 w2 : World) :
  playback w1 = playback w2 ->
  playback (exec a w1) = playback (exec a w2).
Proof.
  intros H. destruct a; cbn [exec].
  - exact H.
  - unfold playback in *. cbn. injection H as Ha Hw Hc. now rewrite Ha, Hw, Hc.
  - now rewrite !playback_sendAudio.
  - now apply playback_playAudioInRoom.
  - unfold disconnect.
    destruct (ws (openai w1)), (ws (openai w2)); exact H.
  - now apply playback_handle.
Qed.

Lemma playback_run (acts : list Action) (w1 w2 : World) :
  playback w1 = playback w2 ->
  playback (run acts w1) = playback (run acts w2).
Proof.
  revert w1 w2. induction acts as [|a acts IH]; intros w1 w2 H.
  - exact H.
  - cbn [run fold_left]. apply IH. now apply playback_exec.
Qed.

(** ** Audio deltas on their way to the sink *)

Lemma playAudioInRoom_goes_on (pcm16Buffer : list Z) (w : World)
    (src : AudioSource) :
  audioSource (agent w) = Some src ->
  (queuedDuration src <= MAX_QUEUE_DURATION_MS)%Q ->
  playAudioInRoom pcm16Buffer w
  = with_capturing (fun l => l ++ [frameOf pcm16Buffer])
      (with_agent
         (set_audioSource (Sink.captureFrame (frameOf pcm16Buffer) src)) w).
Proof.
  intros Hsrc Hq. apply Qltb_false_iff in Hq.
  unfold playAudioInRoom. rewrite Hsrc, Hq.
  now apply playAudioInRoom_publish_eq.
Qed.

Lemma published_handleMessage_delta (delta : string) (w : World)
    (src : AudioSource) :
  audioSource (agent w) = Some src ->
  (queuedDuration src <= MAX_QUEUE_DURATION_MS)%Q ->
  playback (handleMessage (response_audio_delta delta) w)
  = playback
      (with_capturing (fun l => l ++ [frameOf (Buffer.from_base64 delta)])
         (with_agent
            (set_audioSource
               (Sink.captureFrame (frameOf (Buffer.from_base64 delta)) src)) w)).
Proof.
  intros Hsrc Hq.
  destruct (handleMessage_delta delta w) as (w' & Hw' & ->).
  assert (Ha : agent w' = agent w) by (unfold playback in Hw'; congruence).
  rewrite Ha, Hsrc.
  rewrite (playback_playAudioInRoom _ _ _ Hw').
  now rewrite (playAudioInRoom_goes_on _ _ _ Hsrc Hq).
Qed.

Lemma waiting_playback (w1 w2 : World) :
  playback w1 = playback w2 -> waiting w1 = waiting w2.
Proof. unfold playback. congruence. Qed.

Lemma parked_handleMessage_delta (delta : string) (w : World)
    (src : AudioSource) :
  audioSource (agent w) = Some src ->
  (MAX_QUEUE_DURATION_MS < queuedDuration src)%Q ->
  playback (handleMessage (response_audio_delta delta) w)
  = playback
      (with_waiting (fun l => l ++ [Buffer.from_base64 delta]) w).
Proof.
  intros Hsrc Hq. apply Qltb_iff in Hq.
  destruct (handleMessage_delta delta w) as (w' & Hw' & ->).
  assert (Ha : agent w' = agent w) by (unfold playback in Hw'; congruence).
  rewrite Ha, Hsrc.
  rewrite (playback_playAudioInRoom _ _ _ Hw').
  unfold playAudioInRoom. now rewrite Hsrc, Hq.
Qed.

Lemma console_playAudioInRoom (pcm16Buffer : list Z) (w : World)
    (src : AudioSource) :
  audioSource (agent w) = Some src ->
  console (playAudioInRoom pcm16Buffer w) = console w.
Proof.
  intros Hsrc. unfold playAudioInRoom. rewrite Hsrc.
  destruct (JS.Qltb MAX_QUEUE_DURATION_MS (queuedDuration src));
    [reflexivity|].
  now rewrite (playAudioInRoom_publish_eq _ _ _ Hsrc).
Qed.

Lemma console_handleMessage_delta (delta : string) (w : World) :
  console (handleMessage (response_audio_delta delta) w) = console w
  \/ console (handleMessage (response_audio_delta delta) w)
     = console w
       ++ [console_log "[OPENAI] TEST 4.1: Received audio delta"%string].
Proof.
  cbn [handleMessage].
  destruct (audioChunksReceived
              (openai (with_openai incr_audioChunksReceived w)) <=? 3)%N;
    [right | left].
  - destruct (audioSource
                (agent
                   (console_out
                      (console_log "[OPENAI] TEST 4.1: Received audio delta")
                      (with_openai incr_audioChunksReceived w))))
      as [src|] eqn:Hsrc; [|reflexivity].
    now rewrite (console_playAudioInRoom _ _ _ Hsrc).
  - destruct (audioSource
                (agent (with_openai incr_audioChunksReceived w)))
      as [src|] eqn:Hsrc; [|reflexivity].
    now rewrite (console_playAudioInRoom _ _ _ Hsrc).
Qed.

(** C7, as the code has it.  Turning a delta into a frame never fails,
    whatever the parity of its length: a payload of [n] octets gives a
    frame of [floor(n / 2)] samples (the last octet of an odd payload is
    not read), and handling the delta prints no error: the console gains
    at most the line that announces a delta.  What becomes of the frame
    is what becomes of any frame.  With a source whose queue is within
    the watermark it is handed over at once, and a later delta is handled
    in the same way after it.  With a source whose queue is above the
    watermark the call is suspended behind the earlier ones, nothing is
    handed over until playout is signalled, then the frame follows those
    suspended before it, and a later delta is suspended behind it.
    Without a source the frame is dropped, playback staying as it was. *)
Theorem delta_decoding_never_fails (delta : string) (w : World) :
  decodeDelta delta = Normal (frameOf (Buffer.from_base64 delta))
  /\ length (data (frameOf (Buffer.from_base64 delta)))
     = (length (Buffer.from_base64 delta) / 2)%nat
  /\ (console (handleMessage (response_audio_delta delta) w) = console w
      \/ console (handleMessage (response_audio_delta delta) w)
         = console w
           ++ [console_log "[OPENAI] TEST 4.1: Received audio delta"%string])
  /\ (forall src : AudioSource,
        audioSource (agent w) = Some src ->
        console (playAudioInRoom (Buffer.from_base64 delta) w) = console w
        /\ ((queuedDuration src <= MAX_QUEUE_DURATION_MS)%Q ->
            published (handleMessage (response_audio_delta delta) w)
            = published w ++ [frameOf (Buffer.from_base64 delta)]
            /\ forall later : string,
                 (queuedDuration
                    (Sink.captureFrame
                       (frameOf (Buffer.from_base64 delta)) src)
                  <= MAX_QUEUE_DURATION_MS)%Q ->
                 published
                   (handleMessage (response_audio_delta later)
                      (handleMessage (response_audio_delta delta) w))
                 = published w ++ [frameOf (Buffer.from_base64 delta);
                                   frameOf (Buffer.from_base64 later)])
        /\ ((MAX_QUEUE_DURATION_MS < queuedDuration src)%Q ->
            waiting (handleMessage (response_audio_delta delta) w)
            = waiting w ++ [Buffer.from_base64 delta]
            /\ published (handleMessage (response_audio_delta delta) w)
               = published w
            /\ published
                 (handle PlayoutDone
                    (handleMessage (response_audio_delta delta) w))
               = published w
                 ++ map frameOf (waiting w ++ [Buffer.from_base64 delta])
            /\ forall later : string,
                 waiting
                   (handleMessage (response_audio_delta later)
                      (handleMessage (response_audio_delta delta) w))
                 = waiting w ++ [Buffer.from_base64 delta;
                                 Buffer.from_base64 later]))
  /\ (audioSource (agent w) = None ->
      playback (handleMessage (response_audio_delta delta) w) = playback w).
Proof.
  split; [apply frameOfBuffer_eq|].
  split; [apply length_int16_pairs|].
  split; [apply console_handleMessage_delta|].
  split.
  - intros src Hsrc.
    split; [now apply console_playAudioInRoom with (src := src)|].
    split.
    + intros Hq.
      pose proof (published_handleMessage_delta delta w src Hsrc Hq) as Hfirst.
      split.
      * rewrite (published_playback _ _ Hfirst).
        unfold published. cbn. now rewrite Hsrc.
      * intros later Hq'.
        rewrite (published_playback _ _
                   (playback_handleMessage (response_audio_delta later) _ _
                      Hfirst)).
        rewrite (published_playback _ _
                   (published_handleMessage_delta later
                      (with_capturing
                         (fun l => l ++ [frameOf (Buffer.from_base64 delta)])
                         (with_agent
                            (set_audioSource
                               (Sink.captureFrame
                                  (frameOf (Buffer.from_base64 delta)) src)) w))
                      (Sink.captureFrame
                         (frameOf (Buffer.from_base64 delta)) src)
                      eq_refl Hq')).
        unfold published. cbn. rewrite Hsrc, <- app_assoc. reflexivity.
    + intros Hq.
      pose proof (parked_handleMessage_delta delta w src Hsrc Hq) as Hfirst.
      split; [|split; [|split]].
      * now rewrite (waiting_playback _ _ Hfirst).
      * now rewrite (published_playback _ _ Hfirst).
      * rewrite (published_playback _ _
                   (playback_handle PlayoutDone _ _ Hfirst)).
        now rewrite (published_PlayoutDone _ src).
      * intros later.
        pose proof (playback_handleMessage (response_audio_delta later) _ _
                      Hfirst) as Hsecond.
        rewrite (parked_handleMessage_delta later
                   (with_waiting
                      (fun l => l ++ [Buffer.from_base64 delta]) w)
                   src Hsrc Hq) in Hsecond.
        rewrite (waiting_playback _ _ Hsecond).
        cbn. now rewrite <- app_assoc.
  - intros Hnone.
    destruct (handleMessage_delta delta w) as (w' & Hw' & ->).
    assert (Ha : agent w' = agent w) by (unfold playback in Hw'; congruence).
    now rewrite Ha, Hnone.
Qed.

Lemma delta_decoding_never_fails_witness :
  length (Buffer.from_base64 "AQIDBAU=") = 5%nat
  /\ decodeDelta "AQIDBAU=" = Normal (mkAudioFrame [513; 1027] 24000 1 2)
  /\ published
       (handleMessage (response_audio_delta "AwAEAA==")
          (handleMessage (response_audio_delta "AQIDBAU=")
             (setupAudioPublishing new_AIAgent)))
     = [mkAudioFrame [513; 1027] 24000 1 2; mkAudioFrame [3; 4] 24000 1 2].
Proof.
  split; [reflexivity|].
  destruct (delta_decoding_never_fails "AQIDBAU="
              (setupAudioPublishing new_AIAgent))
    as (Hdecode & _ & _ & Hsink & _).
  destruct (Hsink Sink.new_AudioSource eq_refl) as (_ & Hwithin & _).
  destruct (Hwithin ltac:(discriminate)) as [_ Hlater].
  split.
  - exact Hdecode.
  - exact (Hlater "AwAEAA=="%string ltac:(vm_compute; discriminate)).
Defined.

(** C7 as stated fails: a payload of five octets is not rejected, it is
    decoded to the two samples of its first four octets, and no error line
    is printed when it is played. *)
Lemma five_octet_payload_is_accepted :
  Buffer.from_base64 "AQIDBAU=" = [1; 2; 3; 4; 5]
  /\ decodeDelta "AQIDBAU=" = Normal (mkAudioFrame [513; 1027] 24000 1 2)
  /\ (forall message : string, decodeDelta "AQIDBAU=" <> Throw message)
  /\ console
       (playAudioInRoom (Buffer.from_base64 "AQIDBAU=")
          (setupAudioPublishing new_AIAgent))
     = console (setupAudioPublishing new_AIAgent).
Proof.
  split; [reflexivity|].
  assert (H : decodeDelta "AQIDBAU=" = Normal (mkAudioFrame [513; 1027] 24000 1 2))
    by reflexivity.
  rewrite H. repeat split. discriminate.
Qed.

(** C8, as the code has it.  An audio delta that arrives while the agent
    has no [audioSource] is discarded: [handleMessage] does not call
    [playAudioInRoom], nothing that playback depends on changes, and
    whatever happens afterwards the sink is handed exactly the frames it
    would have been handed had the delta never arrived.
    [playAudioInRoom] itself, called without a source, prints its warning
    and skips the frame. *)
Theorem audio_before_sink_is_discarded (delta : string) (w : World)
    (acts : list Action) :
  audioSource (agent w) = None ->
  playback (handleMessage (response_audio_delta delta) w) = playback w
  /\ published (run acts (handleMessage (response_audio_delta delta) w))
     = published (run acts w)
  /\ playAudioInRoom (Buffer.from_base64 delta) w
     = console_out source_not_ready_warning w.
Proof.
  intros Hnone.
  assert (Hp : playback (handleMessage (response_audio_delta delta) w)
               = playback w).
  { destruct (handleMessage_delta delta w) as (w' & Hw' & ->).
    assert (Ha : agent w' = agent w) by (unfold playback in Hw'; congruence).
    now rewrite Ha, Hnone. }
  split; [exact Hp|]. split.
  - apply published_playback, playback_run, Hp.
  - unfold playAudioInRoom. now rewrite Hnone.
Qed.

Lemma audio_before_sink_is_discarded_witness :
  published
    (run [SetupAudioPublishing; Deliver PlayoutDone;
          Deliver (SocketMessage (response_audio_delta "AwAEAA=="))]
       (handleMessage (response_audio_delta "AQIDBAU=")
          (run [Connect; Deliver SocketOpen] new_AIAgent)))
  = published
      (run [SetupAudioPublishing; Deliver PlayoutDone;
            Deliver (SocketMessage (response_audio_delta "AwAEAA=="))]
         (run [Connect; Deliver SocketOpen] new_AIAgent)).
Proof.
  exact (proj1 (proj2
    (audio_before_sink_is_discarded "AQIDBAU="
       (run [Connect; Deliver SocketOpen] new_AIAgent)
       [SetupAudioPublishing; Deliver PlayoutDone;
        Deliver (SocketMessage (response_audio_delta "AwAEAA=="))]
       eq_refl))).
Defined.

(** C8 as stated fails: a delta delivered before [setupAudioPublishing] is
    held nowhere, and the sink created afterwards never receives it, not
    even when playout is signalled; only the delta that arrives after the
    sink exists is handed over. *)
Lemma delta_before_sink_is_lost :
  waiting
    (run [Connect; Deliver SocketOpen;
          Deliver (SocketMessage (response_audio_delta "AQIDBAU="))]
       new_AIAgent) = []
  /\ capturing
       (run [Connect; Deliver SocketOpen;
             Deliver (SocketMessage (response_audio_delta "AQIDBAU="))]
          new_AIAgent) = []
  /\ published
       (run [Connect; Deliver SocketOpen;
             Deliver (SocketMessage (response_audio_delta "AQIDBAU="));
             SetupAudioPublishing; Deliver PlayoutDone;
             Deliver (SocketMessage (response_audio_delta "AwAEAA=="))]
          new_AIAgent)
     = [mkAudioFrame [3; 4] 24000 1 2].
Proof. repeat split. Qed.

(** ** The order of playback *)

(** C4.  The order is kept among the calls that are parked together (see
    [published_PlayoutDone]), but not between a parked call and a later
    one.  Three deltas of 500 ms fill the queue to 1500 ms; delta [A]
    arrives, finds 1500 ms queued and parks at [waitForPlayout]; 600 ms
    later delta [B] arrives, finds 900 ms queued and is handed over at
    once; [A] is handed over only when playout is signalled.  The sink
    receives [B] before [A]. *)
Lemma later_delta_overtakes_parked_one :
  published
    (run [SetupAudioPublishing;
          Deliver (SocketMessage
                     (response_audio_delta
                        (AudioConverter.toBase64 (data (frameOf (silence 500))))));
          Deliver (SocketMessage
                     (response_audio_delta
                        (AudioConverter.toBase64 (data (frameOf (silence 500))))));
          Deliver (SocketMessage
                     (response_audio_delta
                        (AudioConverter.toBase64 (data (frameOf (silence 500))))));
          Deliver (SocketMessage (response_audio_delta "AQACAA=="));
          Deliver (Elapse 600);
          Deliver (SocketMessage (response_audio_delta "AwAEAA=="));
          Deliver PlayoutDone] new_AIAgent)
  = [frameOf (silence 500); frameOf (silence 500); frameOf (silence 500);
     mkAudioFrame [3; 4] 24000 1 2;
     mkAudioFrame [1; 2] 24000 1 2].
Proof. vm_compute. reflexivity. Qed.

(** * Further properties of the converter *)

(** ** [resample48to24] on streams of frames *)

Lemma resample48to24_nil : AudioConverter.resample48to24 [] = [].
Proof. reflexivity. Qed.

Lemma resample48to24_single (x : Z) : AudioConverter.resample48to24 [x] = [].
Proof. reflexivity. Qed.

Lemma resample48to24_cons2 (x y : Z) (l : list Z) :
  AudioConverter.resample48to24 (x :: y :: l)
  = JS.ToInt16 x :: AudioConverter.resample48to24 l.
Proof.
  rewrite !resample48to24_unfold.
  replace (length (x :: y :: l) / 2)%nat with (S (length l / 2)).
  2:{ cbn [length]. change (S (S (length l))) with (1 * 2 + length l)%nat.
      rewrite Nat.div_add_l by lia. reflexivity. }
  cbn [seq map]. f_equal.
  rewrite <- seq_shift, map_map. apply map_ext. intros i. reflexivity.
Qed.

Lemma resample48to24_int16 (l : list Z) :
  Forall JS.is_int16 (AudioConverter.resample48to24 l).
Proof.
  rewrite resample48to24_unfold. apply Forall_forall. intros v Hv.
  apply list_elem_of_In, in_map_iff in Hv as (i & <- & _).
  apply ToInt16_range.
Qed.

Lemma length_resample48to24 (l : list Z) :
  length (AudioConverter.resample48to24 l) = (length l / 2)%nat.
Proof. now rewrite resample48to24_unfold, length_map, length_seq. Qed.

(** X1.  Converting a stream frame by frame loses nothing at the seams:
    when the first buffer has an even number of samples, decimating the
    concatenation is the concatenation of the decimations. *)
Theorem resample48to24_app (a b : list Z) :
  Nat.Even (length a) ->
  AudioConverter.resample48to24 (a ++ b)
  = AudioConverter.resample48to24 a ++ AudioConverter.resample48to24 b.
Proof.
  induction a as [| x | x y l IH] using list_ind2; intros Heven.
  - reflexivity.
  - destruct Heven as [k Hk]. cbn [length] in Hk. lia.
  - cbn [app]. rewrite !resample48to24_cons2, IH; [reflexivity|].
    destruct Heven as [k Hk]. cbn [length] in Hk. exists (k - 1)%nat. lia.
Qed.

Lemma resample48to24_app_witness :
  AudioConverter.resample48to24 ([1; 2; 3; 4] ++ [5; 6; 7])
  = AudioConverter.resample48to24 [1; 2; 3; 4]
    ++ AudioConverter.resample48to24 [5; 6; 7].
Proof.
  apply (resample48to24_app [1; 2; 3; 4] [5; 6; 7]).
  exists 2%nat. reflexivity.
Defined.

(** ** What [convertForOpenAI] puts on the wire *)

(** X2.  The text [convertForOpenAI] produces, read back the way the
    playback path reads an audio delta, is the frame of the decimated
    samples at 24 kHz, mono; no hypothesis on the input is needed, since
    every decimated sample went through a 16 bit store. *)
Theorem convertForOpenAI_decodes (f : AudioFrame) :
  exists base64Audio : string,
    AudioConverter.convertForOpenAI f = Normal base64Audio
    /\ decodeDelta base64Audio
       = Normal (mkAudioFrame (AudioConverter.resample48to24 (data f))
                   SAMPLE_RATE NUM_CHANNELS
                   (Z.of_nat (length (data f) / 2))).
Proof.
  exists (AudioConverter.toBase64 (AudioConverter.resample48to24 (data f))).
  split; [reflexivity|].
  unfold decodeDelta, AudioConverter.toBase64.
  rewrite from_base64_toString_base64 by apply from_Int16Array_octets.
  unfold frameOfBuffer.
  rewrite Int16Array_view_from_Int16Array by apply resample48to24_int16.
  now rewrite length_resample48to24.
Qed.

Lemma length_encode (b : list Z) :
  length (Buffer.encode b) = (4 * ((length b + 2) / 3))%nat.
Proof.
  induction b as [| x | x y | x y z l IH] using list_ind3; [reflexivity..|].
  cbn [Buffer.encode length]. rewrite IH.
  replace (S (S (S (length l))) + 2)%nat with (1 * 3 + (length l + 2))%nat by lia.
  rewrite Nat.div_add_l by lia. lia.
Qed.

Lemma length_string_of_list_ascii (l : list ascii) :
  String.length (string_of_list_ascii l) = length l.
Proof. induction l as [|c l IH]; [reflexivity|]. cbn. now rewrite IH. Qed.

(** X3.  The size of the text sent for a frame of [n] samples: the
    [floor(n / 2)] decimated samples take [2 floor(n / 2)] octets, and the
    base64 text has four characters for every three octets, rounded up to
    a whole group. *)
Theorem convertForOpenAI_length (f : AudioFrame) :
  exists base64Audio : string,
    AudioConverter.convertForOpenAI f = Normal base64Audio
    /\ String.length base64Audio
       = (4 * ((2 * (length (data f) / 2) + 2) / 3))%nat.
Proof.
  exists (AudioConverter.toBase64 (AudioConverter.resample48to24 (data f))).
  split; [reflexivity|].
  unfold AudioConverter.toBase64, Buffer.toString_base64.
  rewrite length_string_of_list_ascii, length_encode, length_from_Int16Array.
  now rewrite length_resample48to24.
Qed.

(** X4.  A frame with fewer than two samples decimates to nothing; its text is
    empty, and the frame loop still sends an append event for it, with
    empty audio. *)
Theorem short_frame_sends_empty_audio (f : AudioFrame) (w : World) :
  (length (data f) < 2)%nat ->
  connected (openai w) = true ->
  ws (openai w) = Some OPEN ->
  wire (forwardFrame f w) = wire w ++ [input_audio_buffer_append ""].
Proof.
  intros Hlen Hc Hopen.
  assert (Hconv : AudioConverter.convertForOpenAI f = Normal ""%string).
  { unfold AudioConverter.convertForOpenAI.
    destruct (data f) as [|x [|y l]]; [reflexivity | reflexivity |].
    cbn [length] in Hlen. lia. }
  unfold forwardFrame. rewrite Hc, Hconv.
  rewrite wire_sendAudio_connected, wire_send, Hopen by exact Hc.
  reflexivity.
Qed.

Lemma short_frame_sends_empty_audio_witness :
  wire (forwardFrame (mkAudioFrame [7] 48000 1 1)
          (handle SocketOpen (connect new_AIAgent)))
  = wire (handle SocketOpen (connect new_AIAgent))
    ++ [input_audio_buffer_append ""].
Proof.
  apply (short_frame_sends_empty_audio (mkAudioFrame [7] 48000 1 1)
           (handle SocketOpen (connect new_AIAgent))).
  - simpl. lia.
  - reflexivity.
  - reflexivity.
Defined.

(** ** [float32ToInt16] keeps the order and clips *)

Lemma Qtrunc_mono (p q : Q) : (p <= q)%Q -> JS.Qtrunc p <= JS.Qtrunc q.
Proof.
  destruct p as [a b], q as [c d]. unfold Qle, JS.Qtrunc. simpl. intros H.
  pose proof (Z.quot_rem' a (Zpos b)) as Ha.
  pose proof (Z.quot_rem' c (Zpos d)) as Hc.
  set (u := Z.quot a (Zpos b)) in *. set (v := Z.quot c (Zpos d)) in *.
  set (r := Z.rem a (Zpos b)) in *. set (s := Z.rem c (Zpos d)) in *.
  assert (Hb : 0 < Zpos b) by lia. assert (Hd : 0 < Zpos d) by lia.
  set (B := Zpos b) in *. set (D := Zpos d) in *.
  destruct (Z_le_gt_dec u v) as [|Hgt]; [assumption|exfalso].
  destruct (Z_le_gt_dec 0 a) as [Ha0|Ha0], (Z_le_gt_dec 0 c) as [Hc0|Hc0].
  - assert (0 <= r < B) by (apply Z.rem_bound_pos; lia).
    assert (0 <= s < D) by (apply Z.rem_bound_pos; lia).
    assert (B * D * (v + 1) <= B * D * u)
      by (apply Z.mul_le_mono_nonneg_l; nia).
    assert (c * B < D * (v + 1) * B) by nia.
    assert (B * u * D <= a * D) by nia.
    lia.
  - assert (0 <= r < B) by (apply Z.rem_bound_pos; lia).
    nia.
  - assert (- B < r <= 0)
      by (pose proof (Z.rem_bound_abs a B ltac:(lia));
          pose proof (Z.rem_nonpos a B ltac:(lia) ltac:(lia)); subst r; lia).
    assert (0 <= s < D) by (apply Z.rem_bound_pos; lia).
    assert (u <= 0) by nia. assert (0 <= v) by nia. lia.
  - assert (- B < r <= 0)
      by (pose proof (Z.rem_bound_abs a B ltac:(lia));
          pose proof (Z.rem_nonpos a B ltac:(lia) ltac:(lia)); subst r; lia).
    assert (- D < s <= 0)
      by (pose proof (Z.rem_bound_abs c D ltac:(lia));
          pose proof (Z.rem_nonpos c D ltac:(lia) ltac:(lia)); subst s; lia).
    assert (c * B <= B * D * (u - 1)) by nia.
    assert (B * D * (u - 1) < a * D) by nia.
    lia.
Qed.

(** The clamp of a finite number, by cases. *)
Lemma clamp_Finite (p : Q) :
  ((p <= -1)%Q /\ AudioConverter.clamp (JS.Finite p) = JS.Finite (inject_Z (-1)))
  \/ ((-1 < p)%Q /\ (p < 1)%Q /\ AudioConverter.clamp (JS.Finite p) = JS.Finite p)
  \/ ((1 <= p)%Q /\ AudioConverter.clamp (JS.Finite p) = JS.Finite (inject_Z 1)).
Proof.
  unfold AudioConverter.clamp, JS.Math_min, JS.of_Z. cbn [JS.lt].
  destruct (JS.Qltb p (inject_Z 1)) eqn:H1.
  - unfold JS.Math_max. cbn [JS.lt].
    destruct (JS.Qltb (inject_Z (-1)) p) eqn:H2.
    + right; left. apply Qltb_true in H1, H2. auto.
    + left. apply Qltb_false in H2. auto.
  - right; right. apply Qltb_false in H1. auto.
Qed.

Lemma scale_Finite (s : Q) :
  AudioConverter.scale (JS.Finite s)
  = JS.Finite (if JS.Qltb s (inject_Z 0) then s * inject_Z 32768
               else s * inject_Z 32767).
Proof.
  unfold AudioConverter.scale, JS.of_Z. cbn [JS.lt].
  destruct (JS.Qltb s (inject_Z 0)); reflexivity.
Qed.

(** The value written for a finite sample. *)
Lemma scaled_mono (s t : Q) :
  (-1 <= s)%Q -> (t <= 1)%Q -> (s <= t)%Q ->
  JS.truncate (AudioConverter.scale (JS.Finite s))
  <= JS.truncate (AudioConverter.scale (JS.Finite t)).
Proof.
  intros Hs Ht Hst. rewrite !scale_Finite. cbn [JS.truncate].
  destruct (JS.Qltb s (inject_Z 0)) eqn:H1, (JS.Qltb t (inject_Z 0)) eqn:H2.
  - apply Qtrunc_mono. apply Qmult_le_compat_r; [exact Hst | discriminate].
  - apply Qltb_true in H1. apply Qltb_false in H2.
    pose proof (Qtrunc_scaled_neg s Hs H1).
    pose proof (Qtrunc_scaled_pos t H2 Ht). lia.
  - apply Qltb_false in H1. apply Qltb_true in H2.
    exfalso. apply (Qlt_irrefl (inject_Z 0)).
    eapply Qle_lt_trans; [exact H1|]. eapply Qle_lt_trans; eassumption.
  - apply Qtrunc_mono. apply Qmult_le_compat_r; [exact Hst | discriminate].
Qed.

Lemma converted_mono (p q : Q) :
  (p <= q)%Q ->
  JS.truncate (AudioConverter.scale (AudioConverter.clamp (JS.Finite p)))
  <= JS.truncate (AudioConverter.scale (AudioConverter.clamp (JS.Finite q))).
Proof.
  intros Hpq.
  assert (Hm1 : (-1 <= inject_Z (-1))%Q) by discriminate.
  assert (H1 : (inject_Z 1 <= 1)%Q) by discriminate.
  assert (Hm11 : (inject_Z (-1) <= 1)%Q) by discriminate.
  assert (H1m1 : (-1 <= inject_Z 1)%Q) by discriminate.
  destruct (clamp_Finite p) as [[Hp ->] | [(Hp1 & Hp2 & ->) | [Hp ->]]];
    destruct (clamp_Finite q) as [[Hq ->] | [(Hq1 & Hq2 & ->) | [Hq ->]]];
    apply scaled_mono;
    try assumption; try apply Qle_refl; try discriminate;
    try (apply Qlt_le_weak; assumption);
    change (inject_Z (-1)) with (-1)%Q in *; change (inject_Z 1) with 1%Q in *;
    lra.
Qed.

(** X5.  The converter keeps the order of samples: of two finite inputs, the
    greater never gets the smaller output (position by position, for
    arrays of finite numbers). *)
Theorem float32ToInt16_monotone (xs ys : list Q) :
  Forall2 Qle xs ys ->
  Forall2 Z.le
    (AudioConverter.float32ToInt16 (map JS.Finite xs))
    (AudioConverter.float32ToInt16 (map JS.Finite ys)).
Proof.
  intros H. rewrite !float32ToInt16_unfold.
  induction H as [|p q xs ys Hpq _ IH]; cbn [map]; constructor; [|exact IH].
  rewrite !ToInt16_id by apply scaled_in_range.
  now apply converted_mono.
Qed.

Lemma float32ToInt16_monotone_witness :
  Forall2 Z.le
    (AudioConverter.float32ToInt16 (map JS.Finite [(-1 # 2)%Q; (1 # 3)%Q]))
    (AudioConverter.float32ToInt16 (map JS.Finite [(-1 # 4)%Q; 2%Q])).
Proof.
  apply (float32ToInt16_monotone [(-1 # 2)%Q; (1 # 3)%Q] [(-1 # 4)%Q; 2%Q]).
  repeat constructor; discriminate.
Defined.

(** X6.  Clipping: a sample of 1 or more, or plus infinity, is written as
    32767; a sample of -1 or less, or minus infinity, as -32768; a [NaN]
    as 0.  The output has the length of the input. *)
Theorem float32ToInt16_clips (float32Array : list JS.number) (i : nat)
    (x : JS.number) :
  float32Array !! i = Some x ->
  length (AudioConverter.float32ToInt16 float32Array) = length float32Array
  /\ (x = JS.PosInfinity \/ (exists q, x = JS.Finite q /\ (1 <= q)%Q) ->
      AudioConverter.float32ToInt16 float32Array !! i = Some 32767)
  /\ (x = JS.NegInfinity \/ (exists q, x = JS.Finite q /\ (q <= -1)%Q) ->
      AudioConverter.float32ToInt16 float32Array !! i = Some (-32768))
  /\ (x = JS.NaN ->
      AudioConverter.float32ToInt16 float32Array !! i = Some 0).
Proof.
  intros Hx. rewrite float32ToInt16_unfold.
  split; [apply length_map|].
  change (map ?f float32Array) with (f <$> float32Array).
  rewrite list_lookup_fmap, Hx. cbn [fmap option_fmap option_map].
  repeat split.
  - intros [-> | (q & -> & Hq)]; [reflexivity|].
    destruct (clamp_Finite q) as [[Hp _] | [(_ & Hp & _) | [_ ->]]];
      [exfalso; lra | exfalso; lra | reflexivity].
  - intros [-> | (q & -> & Hq)]; [reflexivity|].
    destruct (clamp_Finite q) as [[_ ->] | [(Hp & _ & _) | [Hp _]]];
      [reflexivity | exfalso; lra | exfalso; lra].
  - intros ->. reflexivity.
Qed.

Lemma float32ToInt16_clips_witness :
  AudioConverter.float32ToInt16 [JS.Finite (3 # 2); JS.NaN] !! 0%nat
  = Some 32767.
Proof.
  refine (proj1 (proj2
    (float32ToInt16_clips [JS.Finite (3 # 2); JS.NaN] 0 (JS.Finite (3 # 2))
       eq_refl)) _).
  right. exists (3 # 2)%Q. split; [reflexivity | discriminate].
Defined.

(** * Further properties of the session *)

(** ** What each step does to the session and to the wire *)

Lemma side_publish (pcm16Buffer : list Z) (w : World) :
  openai (playAudioInRoom_publish pcm16Buffer w) = openai w
  /\ wire (playAudioInRoom_publish pcm16Buffer w) = wire w.
Proof.
  unfold playAudioInRoom_publish. rewrite frameOfBuffer_eq.
  destruct (audioSource (agent w)); split; reflexivity.
Qed.

Lemma side_playAudioInRoom (pcm16Buffer : list Z) (w : World) :
  openai (playAudioInRoom pcm16Buffer w) = openai w
  /\ wire (playAudioInRoom pcm16Buffer w) = wire w.
Proof.
  unfold playAudioInRoom. destruct (audioSource (agent w)) as [src|].
  - destruct (JS.Qltb MAX_QUEUE_DURATION_MS (queuedDuration src)).
    + split; reflexivity.
    + apply side_publish.
  - split; reflexivity.
Qed.

Lemma side_resumed (parked : list (list Z)) (w : World) :
  openai (fold_left (fun w b => playAudioInRoom_publish b w) parked w) = openai w
  /\ wire (fold_left (fun w b => playAudioInRoom_publish b w) parked w) = wire w.
Proof.
  revert w. induction parked as [|b parked IH]; intros w; [split; reflexivity|].
  cbn [fold_left]. destruct (IH (playAudioInRoom_publish b w)) as [-> ->].
  apply side_publish.
Qed.

Lemma side_settled (ok : bool) (w : World) :
  openai (playAudioInRoom_settled ok w) = openai w
  /\ wire (playAudioInRoom_settled ok w) = wire w.
Proof.
  unfold playAudioInRoom_settled. destruct ok; [|split; reflexivity].
  match goal with |- context [if ?c then _ else _] => destruct c end;
    split; reflexivity.
Qed.

Lemma openai_handleMessage (message : ServerEvent) (w : World) :
  openai (handleMessage message w)
  = match message with
    | session_created id _ => set_sessionId id (openai w)
    | input_audio_transcription_completed _ =>
        incr_textResponsesReceived (openai w)
    | response_audio_delta _ => incr_audioChunksReceived (openai w)
    | _ => openai w
    end.
Proof.
  destruct message; try reflexivity.
  - cbn. match goal with |- context [if ?c then _ else _] => destruct c end;
      reflexivity.
  - cbn [handleMessage].
    destruct (audioChunksReceived
                (openai (with_openai incr_audioChunksReceived w)) <=? 3)%N;
      match goal with
      | |- context [match audioSource ?a with _ => _ end] =>
          destruct (audioSource a)
      end;
      rewrite ?(proj1 (side_playAudioInRoom _ _)); reflexivity.
Qed.

Lemma wire_handleMessage (message : ServerEvent) (w : World) :
  wire (handleMessage message w) = wire w.
Proof.
  destruct message; try reflexivity.
  - cbn. match goal with |- context [if ?c then _ else _] => destruct c end;
      reflexivity.
  - cbn [handleMessage].
    destruct (audioChunksReceived
                (openai (with_openai incr_audioChunksReceived w)) <=? 3)%N;
      match goal with
      | |- context [match audioSource ?a with _ => _ end] =>
          destruct (audioSource a)
      end;
      rewrite ?(proj2 (side_playAudioInRoom _ _)); reflexivity.
Qed.

Lemma openai_sendAudio (base64Audio : string) (w : World) :
  openai (sendAudio base64Audio w)
  = if connected (openai w) then incr_audioChunksSent (openai w)
    else openai w.
Proof.
  unfold sendAudio. destruct (connected (openai w)); cbn [negb]; [|reflexivity].
  match goal with |- context [if ?c then _ else _] => destruct c end;
    cbn; now rewrite openai_send.
Qed.

Lemma wire_sendAudio (base64Audio : string) (w : World) :
  wire (sendAudio base64Audio w)
  = if connected (openai w) then
      match ws (openai w) with
      | Some OPEN => wire w ++ [input_audio_buffer_append base64Audio]
      | _ => wire w
      end
    else wire w.
Proof.
  destruct (connected (openai w)) eqn:Hc.
  - now rewrite wire_sendAudio_connected, wire_send.
  - unfold sendAudio. now rewrite Hc.
Qed.

Lemma forwardFrame_sendAudio (frame : AudioFrame) (w : World) :
  connected (openai w) = true ->
  forwardFrame frame w
  = sendAudio
      (AudioConverter.toBase64 (AudioConverter.resample48to24 (data frame))) w.
Proof. intros Hc. unfold forwardFrame. now rewrite Hc. Qed.

Lemma openai_forwardFrame (frame : AudioFrame) (w : World) :
  openai (forwardFrame frame w)
  = if connected (openai w) then incr_audioChunksSent (openai w)
    else openai w.
Proof.
  destruct (connected (openai w)) eqn:Hc.
  - now rewrite forwardFrame_sendAudio, openai_sendAudio, Hc.
  - unfold forwardFrame. now rewrite Hc.
Qed.

Lemma wire_forwardFrame (frame : AudioFrame) (w : World) :
  wire (forwardFrame frame w)
  = if connected (openai w) then
      match ws (openai w) with
      | Some OPEN =>
          wire w
          ++ [input_audio_buffer_append
                (AudioConverter.toBase64
                   (AudioConverter.resample48to24 (data frame)))]
      | _ => wire w
      end
    else wire w.
Proof.
  destruct (connected (openai w)) eqn:Hc.
  - now rewrite forwardFrame_sendAudio, wire_sendAudio, Hc.
  - unfold forwardFrame. now rewrite Hc.
Qed.

(** The session after a step, from the session before it. *)
Lemma openai_exec (a : Action) (w : World) :
  openai (exec a w)
  = let s := openai w in
    match a with
    | Connect => set_ws (Some CONNECTING) s
    | SendAudio _ | Deliver (TrackFrame _) =>
        if connected s then incr_audioChunksSent s else s
    | Disconnect =>
        match ws s with
        | Some _ => set_connected false (set_ws None s)
        | None => s
        end
    | Deliver SocketOpen => set_connected true (socket_state OPEN s)
    | Deliver SocketError => set_connected false s
    | Deliver SocketClosing => socket_state CLOSING s
    | Deliver SocketClose => set_connected false (socket_state CLOSED s)
    | Deliver (SocketMessage (session_created id _)) => set_sessionId id s
    | Deliver (SocketMessage (input_audio_transcription_completed _)) =>
        incr_textResponsesReceived s
    | Deliver (SocketMessage (response_audio_delta _)) =>
        incr_audioChunksReceived s
    | _ => s
    end.
Proof.
  destruct a as [| | b | buf | | e]; cbn [exec].
  - reflexivity.
  - reflexivity.
  - apply openai_sendAudio.
  - apply side_playAudioInRoom.
  - unfold disconnect. destruct (ws (openai w)); reflexivity.
  - destruct e; cbn [handle].
    + unfold initializeSession. cbn. now rewrite openai_send.
    + rewrite openai_handleMessage. destruct message; reflexivity.
    + reflexivity.
    + reflexivity.
    + reflexivity.
    + reflexivity.
    + now rewrite (proj1 (side_resumed _ _)).
    + destruct (capturing w); [reflexivity|].
      now rewrite (proj1 (side_settled _ _)).
    + apply openai_forwardFrame.
    + reflexivity.
Qed.

(** The wire after a step: only [sendAudio], the frame loop and the [open]
    handler write to the socket. *)
Lemma wire_exec (a : Action) (w : World) :
  wire (exec a w)
  = let s := openai w in
    match a with
    | SendAudio base64Audio =>
        if connected s then
          match ws s with
          | Some OPEN => wire w ++ [input_audio_buffer_append base64Audio]
          | _ => wire w
          end
        else wire w
    | Deliver (TrackFrame frame) =>
        if connected s then
          match ws s with
          | Some OPEN =>
              wire w
              ++ [input_audio_buffer_append
                    (AudioConverter.toBase64
                       (AudioConverter.resample48to24 (data frame)))]
          | _ => wire w
          end
        else wire w
    | Deliver SocketOpen =>
        match ws s with
        | Some _ => wire w ++ [session_update]
        | None => wire w
        end
    | _ => wire w
    end.
Proof.
  destruct a as [| | b | buf | | e]; cbn [exec].
  - reflexivity.
  - reflexivity.
  - apply wire_sendAudio.
  - apply side_playAudioInRoom.
  - unfold disconnect. destruct (ws (openai w)); reflexivity.
  - destruct e; cbn [handle].
    + unfold initializeSession. cbn. rewrite wire_send. cbn.
      unfold socket_state. destruct (ws (openai w)) eqn:E; cbn;
        rewrite ?E; reflexivity.
    + apply wire_handleMessage.
    + reflexivity.
    + reflexivity.
    + reflexivity.
    + reflexivity.
    + now rewrite (proj2 (side_resumed _ _)).
    + destruct (capturing w); [reflexivity|].
      now rewrite (proj2 (side_settled _ _)).
    + apply wire_forwardFrame.
    + reflexivity.
Qed.

Lemma run_snoc (acts : list Action) (a : Action) (w : World) :
  run (acts ++ [a]) w = exec a (run acts w).
Proof. unfold run. now rewrite fold_left_app. Qed.

Lemma run_cons (a : Action) (acts : list Action) (w : World) :
  run (a :: acts) w = run acts (exec a w).
Proof. reflexivity. Qed.

Lemma run_app (acts1 acts2 : list Action) (w : World) :
  run (acts1 ++ acts2) w = run acts2 (run acts1 w).
Proof. unfold run. apply fold_left_app. Qed.

(** ** Invariants of the wire *)

Lemma appended_audio_app (l1 l2 : list ClientEvent) :
  appended_audio (l1 ++ l2) = appended_audio l1 ++ appended_audio l2.
Proof.
  induction l1 as [|[|audio] l1 IH]; cbn; [reflexivity | exact IH |].
  now rewrite IH.
Qed.

Lemma run_invariant (P : World -> Prop) :
  (forall a w, P w -> P (exec a w)) ->
  forall acts w, P w -> P (run acts w).
Proof.
  intros Hstep acts. induction acts as [|a acts IH]; intros w Hw; [exact Hw|].
  rewrite run_cons. apply IH, Hstep, Hw.
Qed.

(** X7.  The configuration goes first: whatever is called and whatever
    arrives, the first event the agent ever writes to the socket is
    [session.update]; no audio is transmitted before it. *)
Theorem session_update_is_first (acts : list Action) :
  wire (run acts new_AIAgent) = []
  \/ exists rest, wire (run acts new_AIAgent) = session_update :: rest.
Proof.
  enough (H : match wire (run acts new_AIAgent) with
              | [] => ws (openai (run acts new_AIAgent)) <> Some OPEN
              | e :: _ => e = session_update
              end).
  { destruct (wire (run acts new_AIAgent)) as [|e rest]; [now left|].
    right. exists rest. now subst. }
  apply (run_invariant
           (fun w => match wire w with
                     | [] => ws (openai w) <> Some OPEN
                     | e :: _ => e = session_update
                     end)); [|discriminate].
  intros a w Hw. rewrite wire_exec, openai_exec. cbv zeta.
  destruct (openai w) as [wsx c sid n1 n2 n3].
  destruct (wire w) as [|e0 rest] eqn:Hwire; cbn in Hw |- *.
  - destruct a as [| | b | buf | | [| m | | | | | | | |]];
      try destruct m; destruct wsx as [[]|], c; cbn; congruence.
  - destruct a as [| | b | buf | | [| m | | | | | | | |]];
      try destruct m; destruct wsx as [[]|], c; cbn; congruence.
Qed.

(** X8.  The counter never undercounts: after any run, [audioChunksSent] is at
    least the number of append events on the wire. *)
Theorem audioChunksSent_bounds_wire (acts : list Action) :
  (N.of_nat (length (appended_audio (wire (run acts new_AIAgent))))
   <= audioChunksSent (openai (run acts new_AIAgent)))%N.
Proof.
  apply (run_invariant
           (fun w => (N.of_nat (length (appended_audio (wire w)))
                      <= audioChunksSent (openai w))%N)); [|cbn; lia].
  intros a w Hw. rewrite wire_exec, openai_exec. cbv zeta.
  destruct (openai w) as [wsx c sid n1 n2 n3]. cbn in Hw |- *.
  destruct a as [| | b | buf | | [| m | | | | | | | |]];
    try destruct m; destruct wsx as [[]|], c; cbn;
    rewrite ?appended_audio_app, ?length_app; cbn; lia.
Qed.

(** ** The way from the track to the wire *)

(** X9.  While the session is connected and the socket open, the frame loop
    sends one append event for every frame, in the order of the frames,
    each with the text of that frame alone: nothing is merged, dropped or
    reordered, and the counter grows by the number of frames. *)
Theorem frames_reach_wire_in_order (frames : list AudioFrame) (w : World) :
  connected (openai w) = true ->
  ws (openai w) = Some OPEN ->
  wire (run (map (fun f => Deliver (TrackFrame f)) frames) w)
  = wire w
    ++ map (fun f => input_audio_buffer_append
                       (AudioConverter.toBase64
                          (AudioConverter.resample48to24 (data f)))) frames
  /\ audioChunksSent
       (openai (run (map (fun f => Deliver (TrackFrame f)) frames) w))
     = (audioChunksSent (openai w) + N.of_nat (length frames))%N.
Proof.
  revert w. induction frames as [|f frames IH]; intros w Hc Hopen.
  - cbn. rewrite app_nil_r. split; [reflexivity | lia].
  - cbn [map]. rewrite run_cons.
    pose proof (wire_exec (Deliver (TrackFrame f)) w) as Hw.
    pose proof (openai_exec (Deliver (TrackFrame f)) w) as Ho.
    cbv zeta in Hw, Ho. rewrite Hc in Hw, Ho. rewrite Hopen in Hw.
    destruct (IH (exec (Deliver (TrackFrame f)) w)) as [IHw IHn].
    + rewrite Ho. exact Hc.
    + rewrite Ho. exact Hopen.
    + rewrite IHw, IHn, Hw, Ho, <- app_assoc. cbn [length].
      split; [reflexivity|]. cbn. lia.
Qed.

Lemma frames_reach_wire_in_order_witness :
  wire (run (map (fun f => Deliver (TrackFrame f))
               [mkAudioFrame [1; 2; 3; 4] 48000 1 4;
                mkAudioFrame [5; 6] 48000 1 2])
          (handle SocketOpen (connect new_AIAgent)))
  = wire (handle SocketOpen (connect new_AIAgent))
    ++ map (fun f => input_audio_buffer_append
                       (AudioConverter.toBase64
                          (AudioConverter.resample48to24 (data f))))
         [mkAudioFrame [1; 2; 3; 4] 48000 1 4; mkAudioFrame [5; 6] 48000 1 2].
Proof.
  exact (proj1 (frames_reach_wire_in_order
                  [mkAudioFrame [1; 2; 3; 4] 48000 1 4;
                   mkAudioFrame [5; 6] 48000 1 2]
                  (handle SocketOpen (connect new_AIAgent))
                  eq_refl eq_refl)).
Defined.

(** ** Inbound messages *)

(** X10.  No inbound message, an [error] event included, writes to the socket or
    touches the socket, the [connected] flag or the sent counter; so
    whatever [sendAudio] would have transmitted before the message it
    transmits after it. *)
Theorem messages_leave_sending_alone (message : ServerEvent) (w : World)
    (base64Audio : string) :
  wire (handleMessage message w) = wire w
  /\ ws (openai (handleMessage message w)) = ws (openai w)
  /\ connected (openai (handleMessage message w)) = connected (openai w)
  /\ audioChunksSent (openai (handleMessage message w))
     = audioChunksSent (openai w)
  /\ wire (sendAudio base64Audio (handleMessage message w))
     = wire (sendAudio base64Audio w).
Proof.
  pose proof (wire_handleMessage message w) as Hw.
  pose proof (openai_handleMessage message w) as Ho.
  assert (Hws : ws (openai (handleMessage message w)) = ws (openai w))
    by (rewrite Ho; destruct message; reflexivity).
  assert (Hc : connected (openai (handleMessage message w))
               = connected (openai w))
    by (rewrite Ho; destruct message; reflexivity).
  repeat split; try assumption.
  - rewrite Ho. destruct message; reflexivity.
  - now rewrite !wire_sendAudio, Hw, Hws, Hc.
Qed.

(** X11.  The two receive counters count messages: after a run,
    [audioChunksReceived] has grown by the number of audio deltas delivered
    (played, parked or dropped alike) and [textResponsesReceived] by the
    number of completed transcriptions; nothing ever resets them. *)
Theorem receive_counters_count_messages (acts : list Action) (w : World) :
  audioChunksReceived (openai (run acts w))
  = (audioChunksReceived (openai w)
     + N.of_nat (length (List.filter is_audio_delta acts)))%N
  /\ textResponsesReceived (openai (run acts w))
     = (textResponsesReceived (openai w)
        + N.of_nat (length (List.filter is_transcription acts)))%N.
Proof.
  revert w. induction acts as [|a acts IH]; intros w.
  - cbn. split; lia.
  - rewrite run_cons. destruct (IH (exec a w)) as [-> ->].
    rewrite openai_exec. cbv zeta.
    destruct (openai w) as [wsx c sid n1 n2 n3].
    destruct a as [| | b | buf | | [| m | | | | | | | |]];
      try destruct m; cbn; try destruct wsx; try destruct c; cbn;
      split; lia.
Qed.

(** X12.  [sessionId] is written by [session.created] alone: after a run it is
    the identifier of the last such message, or what it was when there
    was none; [disconnect] does not clear it. *)
Theorem sessionId_is_last_created (acts : list Action) (w : World) :
  sessionId (openai (run acts w))
  = last_session_created acts (sessionId (openai w)).
Proof.
  revert w. induction acts as [|a acts IH]; intros w; [reflexivity|].
  rewrite run_cons, IH, openai_exec. cbv zeta.
  destruct (openai w) as [wsx c sid n1 n2 n3].
  destruct a as [| | b | buf | | [| m | | | | | | | |]];
    try destruct m; cbn; try destruct wsx; try destruct c; reflexivity.
Qed.

(** ** [disconnect] *)

(** X13.  [disconnect] is idempotent, and it is final for the socket: until
    [connect] is called again nothing is written to the socket, whatever
    is called and whatever events still arrive. *)
Theorem disconnect_silences_the_wire (acts : list Action) (w : World) :
  Forall (fun a => a <> Connect) acts ->
  disconnect (disconnect w) = disconnect w
  /\ ws (openai (run acts (disconnect w))) = None
  /\ wire (run acts (disconnect w)) = wire w.
Proof.
  intros Hacts. split.
  { unfold disconnect. destruct (ws (openai w)) eqn:E; cbn; [reflexivity|].
    now rewrite E. }
  assert (H0 : ws (openai (disconnect w)) = None
               /\ wire (disconnect w) = wire w).
  { unfold disconnect. destruct (ws (openai w)) eqn:E; cbn; auto. }
  revert H0. generalize (disconnect w). intros w0 H0.
  revert w0 H0. induction Hacts as [|a acts Ha _ IH]; intros w0 [Hws Hwire].
  - auto.
  - rewrite run_cons.
    assert (Hstep : ws (openai (exec a w0)) = None
                    /\ wire (exec a w0) = wire w0).
    { rewrite wire_exec, openai_exec. cbv zeta.
      destruct (openai w0) as [wsx c sid n1 n2 n3]. cbn in Hws. subst wsx.
      destruct a as [| | b | buf | | [| m | | | | | | | |]];
        try destruct m; try congruence; cbn; try destruct c; auto. }
    destruct Hstep as [Hws' Hwire'].
    destruct (IH (exec a w0) (conj Hws' (eq_trans Hwire' Hwire))) as [? ?].
    auto.
Qed.

Lemma disconnect_silences_the_wire_witness :
  wire (run [SendAudio "AAAA"; Deliver SocketOpen; SendAudio "AAAA";
             Deliver (TrackFrame (mkAudioFrame [1; 2] 48000 1 2))]
          (disconnect (handle SocketOpen (connect new_AIAgent))))
  = wire (handle SocketOpen (connect new_AIAgent)).
Proof.
  refine (proj2 (proj2
    (disconnect_silences_the_wire
       [SendAudio "AAAA"; Deliver SocketOpen; SendAudio "AAAA";
        Deliver (TrackFrame (mkAudioFrame [1; 2] 48000 1 2))]
       (handle SocketOpen (connect new_AIAgent)) _))).
  repeat constructor; discriminate.
Defined.

(** ** The promise of [connect] *)

Lemma settle_settled (outcome p : Settled) :
  p <> Pending -> settle outcome p = p.
Proof. destruct p; [congruence | reflexivity..]. Qed.

Lemma connect_settles_Rejected (e : Event) (w : World) (message : string) :
  connect_settles e w (Rejected message) = Rejected message.
Proof.
  destruct e; cbn; try reflexivity. now destruct (negb (connected (openai w))).
Qed.

Lemma connecting_Rejected (evs : list Event) (w : World) (message : string) :
  snd (connecting evs w (Rejected message)) = Rejected message.
Proof.
  revert w. induction evs as [|e evs IH]; intros w; [reflexivity|].
  cbn [connecting]. rewrite connect_settles_Rejected. apply IH.
Qed.

Lemma connecting_app (evs1 evs2 : list Event) (w : World) (p : Settled) :
  connecting (evs1 ++ evs2) w p
  = connecting evs2 (fst (connecting evs1 w p)) (snd (connecting evs1 w p)).
Proof.
  revert w p. induction evs1 as [|e evs1 IH]; intros w p; [reflexivity|].
  cbn [app connecting]. apply IH.
Qed.

Lemma fst_connecting (evs : list Event) (w : World) (p : Settled) :
  fst (connecting evs w p) = run (map Deliver evs) w.
Proof.
  revert w p. induction evs as [|e evs IH]; intros w p; [reflexivity|].
  cbn [connecting map]. rewrite run_cons. apply IH.
Qed.

(** Events keep the socket the session has, and only add to the wire. *)
Lemma handle_keeps_socket (e : Event) (w : World) :
  is_Some (ws (openai w)) ->
  is_Some (ws (openai (handle e w)))
  /\ (forall c, In c (wire w) -> In c (wire (handle e w))).
Proof.
  intros [r Hr].
  change (handle e w) with (exec (Deliver e) w).
  rewrite wire_exec, openai_exec. cbv zeta.
  destruct (openai w) as [wsx c sid n1 n2 n3]. cbn in Hr. subst wsx.
  destruct e as [| m | | | | | | | |]; try destruct m; destruct c, r; cbn;
    (split; [eexists; reflexivity
            | intros c0 Hc0; rewrite ?in_app_iff; tauto]).
Qed.

(** X14.  The promise of [connect] is fulfilled only by the [open] event, and
    by then the configuration is on the wire: when [connect] on a fresh
    agent has resolved, [session.update] has been transmitted, whatever
    events came in between. *)
Theorem connect_resolved_after_configuring (evs : list Event) :
  snd (connect_then evs) = Fulfilled ->
  In SocketOpen evs
  /\ In session_update (wire (fst (connect_then evs))).
Proof.
  unfold connect_then.
  assert (H : forall evs w p,
             is_Some (ws (openai w)) ->
             (p = Fulfilled -> In session_update (wire w)) ->
             snd (connecting evs w p) = Fulfilled ->
             (p = Fulfilled \/ In SocketOpen evs)
             /\ In session_update (wire (fst (connecting evs w p)))).
  { clear evs. induction evs as [|e evs IH]; intros w p Hws Hp Hres.
    - cbn in *. auto.
    - cbn [connecting] in *.
      destruct (handle_keeps_socket e w Hws) as [Hws' Hgrow].
      destruct (IH (handle e w) (connect_settles e w p) Hws') as [Hor Hin];
        [|exact Hres|].
      + intros Hf. destruct p.
        * destruct e; cbn in Hf; try discriminate.
          -- destruct Hws as [r Hr].
             change (handle SocketOpen w) with (exec (Deliver SocketOpen) w).
             rewrite wire_exec. cbv zeta. rewrite Hr.
             apply in_app_iff. right. now left.
          -- destruct (negb (connected (openai w))); discriminate.
        * apply Hgrow, Hp. reflexivity.
        * rewrite connect_settles_Rejected in Hf. discriminate.
      + split; [|exact Hin].
        destruct Hor as [Hf | Hin']; [|right; now right].
        destruct p; [|now left|rewrite connect_settles_Rejected in Hf; discriminate].
        destruct e; cbn in Hf; try discriminate.
        * right. now left.
        * destruct (negb (connected (openai w))); discriminate. }
  intros Hres.
  destruct (H evs (connect new_AIAgent) Pending) as [[Hf | Hin] Hw];
    [cbn; eauto | discriminate | exact Hres | discriminate | auto].
Qed.

Lemma connect_resolved_after_configuring_witness :
  In session_update
    (wire (fst (connect_then
                  [SocketMessage session_updated; SocketOpen; ConnectTimer;
                   SocketMessage (session_created "s1" "gpt-4o-realtime")]))).
Proof.
  exact (proj2 (connect_resolved_after_configuring
                  [SocketMessage session_updated; SocketOpen; ConnectTimer;
                   SocketMessage (session_created "s1" "gpt-4o-realtime")]
                  eq_refl)).
Defined.

Lemma connect_settles_Fulfilled (e : Event) (w : World) :
  connect_settles e w Fulfilled = Fulfilled.
Proof.
  destruct e; cbn; try reflexivity. now destruct (negb (connected (openai w))).
Qed.

Lemma connecting_Fulfilled (evs : list Event) (w : World) :
  snd (connecting evs w Fulfilled) = Fulfilled.
Proof.
  revert w. induction evs as [|e evs IH]; intros w; [reflexivity|].
  cbn [connecting]. rewrite connect_settles_Fulfilled. apply IH.
Qed.

Lemma connecting_quiet (evs : list Event) (w : World) :
  Forall settles_nothing evs ->
  connected (openai w) = false ->
  snd (connecting evs w Pending) = Pending
  /\ connected (openai (fst (connecting evs w Pending))) = false.
Proof.
  intros Hq. revert w. induction Hq as [|e evs (H1 & H2 & H3) _ IH]; intros w Hc.
  - auto.
  - cbn [connecting].
    assert (Hp : connect_settles e w Pending = Pending)
      by (destruct e; cbn; congruence).
    rewrite Hp. apply IH.
    change (handle e w) with (exec (Deliver e) w). rewrite openai_exec.
    cbv zeta. destruct (openai w) as [wsx c sid n1 n2 n3]. cbn in Hc. subst c.
    destruct e as [| m | | | | | | | |]; try congruence;
      try destruct m; cbn; try destruct wsx; reflexivity.
Qed.

(** X15.  The first of the three settles the promise of [connect] for good:
    after events that are none of them, an [open] fulfils it, the timer
    rejects it as a timeout (the flag is still false then) and an [error]
    rejects it; nothing that follows changes the outcome.  In particular
    the timer cannot reject a connection that has opened, even when the
    socket has closed again by the time it fires. *)
Theorem connect_first_event_decides (evs1 evs2 : list Event) :
  Forall settles_nothing evs1 ->
  snd (connect_then (evs1 ++ SocketOpen :: evs2)) = Fulfilled
  /\ snd (connect_then (evs1 ++ ConnectTimer :: evs2))
     = Rejected "OpenAI connection timeout"
  /\ snd (connect_then (evs1 ++ SocketError :: evs2))
     = Rejected "WebSocket error".
Proof.
  intros Hq. unfold connect_then.
  destruct (connecting_quiet evs1 (connect new_AIAgent) Hq eq_refl) as [Hp Hc].
  rewrite !connecting_app, Hp. cbn [connecting connect_settles settle].
  rewrite Hc. cbn [negb].
  rewrite connecting_Fulfilled, !connecting_Rejected. auto.
Qed.

Lemma connect_first_event_decides_witness :
  snd (connect_then
         ([Elapse 5; SocketClosing]
          ++ SocketOpen :: [SocketClose; ConnectTimer; SocketError]))
  = Fulfilled.
Proof.
  refine (proj1 (connect_first_event_decides [Elapse 5; SocketClosing]
                   [SocketClose; ConnectTimer; SocketError] _)).
  repeat constructor; discriminate.
Defined.

(** * Further properties of playback *)

(** ** A step of playback, by cases *)

Lemma resumed_with_source (parked : list (list Z)) (w : World)
    (src : AudioSource) :
  audioSource (agent w) = Some src ->
  exists src',
    audioSource
      (agent (fold_left (fun w b => playAudioInRoom_publish b w) parked w))
    = Some src'
    /\ captured src' = captured src ++ map frameOf parked
    /\ waiting (fold_left (fun w b => playAudioInRoom_publish b w) parked w)
       = waiting w
    /\ capturing (fold_left (fun w b => playAudioInRoom_publish b w) parked w)
       = capturing w ++ map frameOf parked
    /\ audioFramesPublished
         (agent (fold_left (fun w b => playAudioInRoom_publish b w) parked w))
       = audioFramesPublished (agent w).
Proof.
  revert w src. induction parked as [|b parked IH]; intros w src Hsrc.
  - exists src. cbn. rewrite !app_nil_r. auto.
  - cbn [fold_left map].
    destruct (IH (playAudioInRoom_publish b w)
                (Sink.captureFrame (frameOf b) src))
      as (src' & Hs & Hc & Hw & Hcap & Hn).
    { now apply publish_keeps_source. }
    exists src'. rewrite Hs, Hc, Hw, Hcap, Hn.
    rewrite (playAudioInRoom_publish_eq _ _ _ Hsrc). cbn.
    rewrite <- !app_assoc. auto.
Qed.

(** The steps that leave playback alone. *)
Lemma playback_exec_quiet (a : Action) (w : World) :
  match a with
  | SetupAudioPublishing | PlayAudioInRoom _
  | Deliver (Elapse _) | Deliver PlayoutDone | Deliver (CaptureSettled _)
  | Deliver (SocketMessage (response_audio_delta _)) => True
  | _ => playback (exec a w) = playback w
  end.
Proof.
  destruct a as [| | b | buf | | e]; cbn [exec]; try exact I.
  - reflexivity.
  - apply playback_sendAudio.
  - unfold disconnect. destruct (ws (openai w)); reflexivity.
  - destruct e as [| m | | | | ms | | ok | frame |]; cbn [handle]; try exact I.
    + unfold initializeSession.
      change (playback (console_out ?l ?w)) with (playback w).
      now rewrite playback_send.
    + destruct m; try exact I; try reflexivity.
      cbn. match goal with |- context [if ?c then _ else _] => destruct c end;
        reflexivity.
    + reflexivity.
    + reflexivity.
    + reflexivity.
    + unfold forwardFrame. destruct (connected (openai w)); [|reflexivity].
      cbn. apply playback_sendAudio.
    + reflexivity.
Qed.

Lemma arrive_cases (b : list Z) (w : World) (src : AudioSource) :
  audioSource (agent w) = Some src ->
  exists src',
    audioSource (agent (playAudioInRoom b w)) = Some src'
    /\ audioFramesPublished (agent (playAudioInRoom b w))
       = audioFramesPublished (agent w)
    /\ ((JS.Qltb MAX_QUEUE_DURATION_MS (queuedDuration src) = true
         /\ src' = src
         /\ waiting (playAudioInRoom b w) = waiting w ++ [b]
         /\ capturing (playAudioInRoom b w) = capturing w)
        \/ (JS.Qltb MAX_QUEUE_DURATION_MS (queuedDuration src) = false
            /\ src' = Sink.captureFrame (frameOf b) src
            /\ waiting (playAudioInRoom b w) = waiting w
            /\ capturing (playAudioInRoom b w) = capturing w ++ [frameOf b])).
Proof.
  intros Hsrc. unfold playAudioInRoom. rewrite Hsrc.
  destruct (JS.Qltb MAX_QUEUE_DURATION_MS (queuedDuration src)) eqn:Hq.
  - exists src. split; [exact Hsrc|]. split; [reflexivity|]. left. auto.
  - rewrite (playAudioInRoom_publish_eq _ _ _ Hsrc).
    exists (Sink.captureFrame (frameOf b) src). split; [reflexivity|].
    split; [reflexivity|]. right. auto.
Qed.

(** What a step other than [setupAudioPublishing] does to a sink that
    exists: nothing to the frames, or a buffer is parked, or a buffer is
    handed over at once, or the parked buffers are all handed over. *)
Lemma exec_playback_cases (a : Action) (w : World) (src : AudioSource) :
  audioSource (agent w) = Some src ->
  is_setup a = false ->
  exists src',
    audioSource (agent (exec a w)) = Some src'
    /\ ((arrivals [a] = []
         /\ captured src' = captured src
         /\ waiting (exec a w) = waiting w
         /\ a <> Deliver PlayoutDone
         /\ (is_elapse a = false -> queuedDuration src' = queuedDuration src))
        \/ (exists b, arrivals [a] = [b]
            /\ JS.Qltb MAX_QUEUE_DURATION_MS (queuedDuration src) = true
            /\ src' = src
            /\ waiting (exec a w) = waiting w ++ [b])
        \/ (exists b, arrivals [a] = [b]
            /\ JS.Qltb MAX_QUEUE_DURATION_MS (queuedDuration src) = false
            /\ captured src' = captured src ++ [frameOf b]
            /\ waiting (exec a w) = waiting w)
        \/ (a = Deliver PlayoutDone
            /\ captured src' = captured src ++ map frameOf (waiting w)
            /\ waiting (exec a w) = [])).
Proof.
  intros Hsrc Hsetup.
  assert (Hquiet : playback (exec a w) = playback w ->
                   arrivals [a] = [] -> a <> Deliver PlayoutDone ->
                   exists src',
                     audioSource (agent (exec a w)) = Some src'
                     /\ ((arrivals [a] = []
                          /\ captured src' = captured src
                          /\ waiting (exec a w) = waiting w
                          /\ a <> Deliver PlayoutDone
                          /\ (is_elapse a = false ->
                              queuedDuration src' = queuedDuration src))
                         \/ (exists b, arrivals [a] = [b]
                             /\ JS.Qltb MAX_QUEUE_DURATION_MS
                                  (queuedDuration src) = true
                             /\ src' = src
                             /\ waiting (exec a w) = waiting w ++ [b])
                         \/ (exists b, arrivals [a] = [b]
                             /\ JS.Qltb MAX_QUEUE_DURATION_MS
                                  (queuedDuration src) = false
                             /\ captured src' = captured src ++ [frameOf b]
                             /\ waiting (exec a w) = waiting w)
                         \/ (a = Deliver PlayoutDone
                             /\ captured src' = captured src
                                                ++ map frameOf (waiting w)
                             /\ waiting (exec a w) = []))).
  { intros Hp Harr Hne. unfold playback in Hp.
    assert (Ha : agent (exec a w) = agent w) by congruence.
    assert (Hw : waiting (exec a w) = waiting w) by congruence.
    exists src. rewrite Ha. split; [exact Hsrc|]. left. auto. }
  pose proof (playback_exec_quiet a w) as Hq.
  destruct a as [| | b | buf | | e]; try discriminate;
    try (apply Hquiet; [exact Hq | reflexivity | discriminate]).
  - cbn [exec].
    destruct (arrive_cases buf w src Hsrc)
      as (src' & Hs & _ & [(Hlt & He & Hw & _) | (Hlt & He & Hw & _)]);
      exists src'; (split; [exact Hs|]).
    + right; left. exists buf. auto.
    + right; right; left. exists buf. subst src'. auto.
  - destruct e as [| m | | | | ms | | ok | frame |];
      try (apply Hquiet; [exact Hq | reflexivity | discriminate]).
    + destruct m;
        try (apply Hquiet; [exact Hq | reflexivity | discriminate]).
      cbn [exec handle].
      destruct (handleMessage_delta delta w) as (w' & Hw' & ->).
      assert (Ha : agent w' = agent w) by (unfold playback in Hw'; congruence).
      assert (Hwt : waiting w' = waiting w)
        by (unfold playback in Hw'; congruence).
      rewrite Ha, Hsrc.
      destruct (arrive_cases (Buffer.from_base64 delta) w' src)
        as (src' & Hs & _ & [(Hlt & He & Hw & _) | (Hlt & He & Hw & _)]);
        [now rewrite Ha | |];
        exists src'; (split; [exact Hs|]); rewrite Hw, Hwt.
      * right; left. exists (Buffer.from_base64 delta). auto.
      * right; right; left. exists (Buffer.from_base64 delta).
        subst src'. auto.
    + cbn [exec handle]. unfold on_agent_source. cbn. rewrite Hsrc.
      exists (Sink.elapse ms src). split; [reflexivity|]. left.
      repeat split; try reflexivity; discriminate.
    + cbn [exec handle].
      destruct (resumed_with_source (waiting w)
                  (with_agent (on_agent_source Sink.playedOut)
                     (with_waiting (fun _ => []) w))
                  (Sink.playedOut src))
        as (src' & Hs & Hc & Hw & _).
      { cbn. unfold on_agent_source. now rewrite Hsrc. }
      exists src'. split; [exact Hs|]. right; right; right.
      rewrite Hw, Hc. auto.
    + cbn [exec handle]. destruct (capturing w) as [|f rest].
      * exists src. split; [exact Hsrc|]. left.
        repeat split; try reflexivity; discriminate.
      * unfold playAudioInRoom_settled. destruct ok.
        -- match goal with |- context [if ?c then _ else _] => destruct c end;
             cbn; rewrite Hsrc; exists src; (split; [reflexivity|]); left;
             repeat split; try reflexivity; discriminate.
        -- cbn. rewrite Hsrc. exists src. split; [reflexivity|]. left.
           repeat split; try reflexivity; discriminate.
Qed.

(** ** Frames handed to the sink are well formed *)

Lemma int16_pairs_int16 (b : list Z) : Forall JS.is_int16 (Buffer.int16_pairs b).
Proof.
  induction b as [| x | x y l IH] using list_ind2; [constructor..|].
  cbn [Buffer.int16_pairs]. constructor; [apply ToInt16_range | exact IH].
Qed.

Lemma well_formed_frameOf (b : list Z) : well_formed (frameOf b).
Proof.
  unfold well_formed, frameOf.
  cbn [sampleRate numChannels samplesPerChannel data].
  split; [reflexivity|]. split; [reflexivity|].
  split; [|apply int16_pairs_int16].
  rewrite length_int16_pairs. unfold NUM_CHANNELS. lia.
Qed.

Lemma resumed_without_source (parked : list (list Z)) (w : World) :
  audioSource (agent w) = None ->
  audioSource
    (agent (fold_left (fun w b => playAudioInRoom_publish b w) parked w))
  = None.
Proof.
  revert w. induction parked as [|b parked IH]; intros w Hnone; [exact Hnone|].
  cbn [fold_left]. apply IH. unfold playAudioInRoom_publish.
  rewrite frameOfBuffer_eq, Hnone. exact Hnone.
Qed.

(** Only [setupAudioPublishing] creates the sink. *)
Lemma no_source_stays (a : Action) (w : World) :
  audioSource (agent w) = None ->
  is_setup a = false ->
  audioSource (agent (exec a w)) = None.
Proof.
  intros Hnone Hsetup.
  assert (Hquiet : playback (exec a w) = playback w ->
                   audioSource (agent (exec a w)) = None).
  { intros Hp. unfold playback in Hp.
    assert (Ha : agent (exec a w) = agent w) by congruence.
    now rewrite Ha. }
  pose proof (playback_exec_quiet a w) as Hq.
  destruct a as [| | b | buf | | e]; try discriminate; try (now apply Hquiet).
  - cbn [exec]. unfold playAudioInRoom. now rewrite Hnone.
  - destruct e as [| m | | | | ms | | ok | frame |]; try (now apply Hquiet).
    + destruct m; try (now apply Hquiet).
      cbn [exec handle].
      destruct (handleMessage_delta delta w) as (w' & Hw' & ->).
      assert (Ha : agent w' = agent w) by (unfold playback in Hw'; congruence).
      now rewrite Ha, Hnone, Ha.
    + cbn. unfold on_agent_source. now rewrite Hnone.
    + cbn [exec handle]. apply resumed_without_source.
      cbn. unfold on_agent_source. now rewrite Hnone.
    + cbn [exec handle]. destruct (capturing w); [exact Hnone|].
      unfold playAudioInRoom_settled. destruct ok; [|exact Hnone].
      match goal with |- context [if ?c then _ else _] => destruct c end;
        exact Hnone.
Qed.

(** X16.  Whatever the wire delivers, every frame the sink is handed is a
    proper frame of its format: 24000 Hz, one channel, a sample count that
    is the length of its data, and 16 bit samples.  An odd or empty
    payload cannot make the agent hand over an inconsistent frame. *)
Theorem published_frames_well_formed (acts : list Action) :
  Forall well_formed (published (run acts new_AIAgent)).
Proof.
  apply (run_invariant (fun w => Forall well_formed (published w)));
    [|constructor].
  intros a w Hw.
  destruct (is_setup a) eqn:Hsetup.
  { destruct a; try discriminate. constructor. }
  unfold published in *.
  destruct (audioSource (agent w)) as [src|] eqn:Hsrc.
  - destruct (exec_playback_cases a w src Hsrc Hsetup)
      as (src' & -> & [(_ & Hc & _) | [(b & _ & _ & -> & _)
                      | [(b & _ & _ & Hc & _) | (_ & Hc & _)]]]);
      rewrite ?Hc; try exact Hw.
    + apply Forall_app. split; [exact Hw|].
      constructor; [apply well_formed_frameOf | constructor].
    + apply Forall_app. split; [exact Hw|].
      apply Forall_forall. intros f Hf.
      apply list_elem_of_In, in_map_iff in Hf as (b & <- & _).
      apply well_formed_frameOf.
  - now rewrite (no_source_stays a w Hsrc Hsetup).
Qed.

(** ** Nothing is lost once the sink exists *)

Lemma arrivals_cons (a : Action) (acts : list Action) :
  arrivals (a :: acts) = arrivals [a] ++ arrivals acts.
Proof.
  destruct a as [| | b | buf | | [| m | | | | | | | |]];
    try destruct m; reflexivity.
Qed.

(** The buffers brought to [playAudioInRoom] are conserved: none is lost
    or duplicated between the sink and the suspended calls. *)
Lemma arrivals_conserved (acts : list Action) (w : World)
    (src : AudioSource) :
  audioSource (agent w) = Some src ->
  Forall (fun a => is_setup a = false) acts ->
  Permutation
    (published (run acts w) ++ map frameOf (waiting (run acts w)))
    (published w ++ map frameOf (waiting w) ++ map frameOf (arrivals acts)).
Proof.
  intros Hsrc Hacts. revert w src Hsrc.
  induction Hacts as [|a acts Ha _ IH]; intros w src Hsrc.
  - cbn. now rewrite app_nil_r.
  - rewrite run_cons, arrivals_cons, map_app.
    destruct (exec_playback_cases a w src Hsrc Ha) as (src' & Hs & Hcases).
    rewrite (IH _ _ Hs). unfold published. rewrite Hs, Hsrc.
    rewrite !app_assoc. apply Permutation_app_tail.
    destruct Hcases as [(-> & -> & -> & _) | [(b & -> & _ & -> & ->)
                       | [(b & -> & _ & -> & ->) | (-> & -> & ->)]]]; cbn [map].
    + now rewrite app_nil_r.
    + now rewrite map_app, app_assoc.
    + rewrite <- !app_assoc. apply Permutation_app_head, Permutation_app_comm.
    + now rewrite !app_nil_r.
Qed.

Lemma arrivals_of_deltas (acts : list Action) :
  Forall (fun a => is_direct_call a = false) acts ->
  arrivals acts = delta_buffers acts.
Proof.
  induction 1 as [|a acts Ha _ IH]; [reflexivity|].
  destruct a as [| | b | buf | | [| m | | | | | | | |]];
    try discriminate; try destruct m; cbn; now rewrite ?IH.
Qed.

(** X17.  Once the sink exists and as long as it is not created anew, no
    audio delta is lost or played twice.  Take a state with a sink and no
    suspended call, and a run in which [playAudioInRoom] is called by
    [handleMessage] only: the frames handed to the sink together with the
    buffers still suspended are, up to their order, the frames handed
    over before the run together with the decoded audio deltas of the
    run. *)
Theorem arrivals_are_published_or_parked (acts : list Action) (w : World)
    (src : AudioSource) :
  audioSource (agent w) = Some src ->
  waiting w = [] ->
  Forall (fun a => is_setup a = false /\ is_direct_call a = false) acts ->
  Permutation
    (published (run acts w) ++ map frameOf (waiting (run acts w)))
    (published w ++ map frameOf (delta_buffers acts)).
Proof.
  intros Hsrc Hnil Hacts.
  rewrite <- (arrivals_of_deltas acts)
    by (eapply Forall_impl; [exact Hacts|]; now intros a [_ Ha]).
  rewrite (arrivals_conserved acts w src Hsrc)
    by (eapply Forall_impl; [exact Hacts|]; now intros a [Ha _]).
  now rewrite Hnil.
Qed.

Lemma arrivals_are_published_or_parked_witness :
  Permutation
    (published
       (run [Deliver (SocketMessage (response_audio_delta "AQACAA=="));
             Deliver (Elapse 600);
             Deliver (SocketMessage (response_audio_delta "AQIDBAU="))]
          (setupAudioPublishing new_AIAgent))
     ++ map frameOf
          (waiting
             (run [Deliver (SocketMessage (response_audio_delta "AQACAA=="));
                   Deliver (Elapse 600);
                   Deliver (SocketMessage (response_audio_delta "AQIDBAU="))]
                (setupAudioPublishing new_AIAgent))))
    (published (setupAudioPublishing new_AIAgent)
     ++ map frameOf
          (delta_buffers
             [Deliver (SocketMessage (response_audio_delta "AQACAA=="));
              Deliver (Elapse 600);
              Deliver (SocketMessage (response_audio_delta "AQIDBAU="))])).
Proof.
  apply (arrivals_are_published_or_parked
           [Deliver (SocketMessage (response_audio_delta "AQACAA=="));
            Deliver (Elapse 600);
            Deliver (SocketMessage (response_audio_delta "AQIDBAU="))]
           (setupAudioPublishing new_AIAgent) Sink.new_AudioSource).
  - reflexivity.
  - reflexivity.
  - repeat constructor.
Defined.

(** ** The order of playback without drain *)

(** Without playout between the steps, a buffer is suspended only while
    the queue is above the watermark, every later buffer is then
    suspended behind it, and the suspended ones are released first in,
    first out. *)
Lemma arrivals_in_order (acts : list Action) (w : World)
    (src : AudioSource) :
  audioSource (agent w) = Some src ->
  (waiting w = []
   \/ JS.Qltb MAX_QUEUE_DURATION_MS (queuedDuration src) = true) ->
  Forall (fun a => is_setup a = false /\ is_elapse a = false) acts ->
  published (run acts w) ++ map frameOf (waiting (run acts w))
  = published w ++ map frameOf (waiting w) ++ map frameOf (arrivals acts)
  /\ published (run (acts ++ [Deliver PlayoutDone]) w)
     = published w ++ map frameOf (waiting w) ++ map frameOf (arrivals acts).
Proof.
  intros Hsrc Hinv Hacts.
  assert (H : exists src',
             audioSource (agent (run acts w)) = Some src'
             /\ published (run acts w) ++ map frameOf (waiting (run acts w))
                = published w ++ map frameOf (waiting w)
                  ++ map frameOf (arrivals acts)).
  { revert w src Hsrc Hinv.
    induction Hacts as [|a acts [Ha He] _ IH]; intros w src Hsrc Hinv.
    - exists src. cbn. now rewrite app_nil_r.
    - rewrite run_cons, arrivals_cons, map_app.
      destruct (exec_playback_cases a w src Hsrc Ha) as (src' & Hs & Hcases).
      assert (Hstep :
        (waiting (exec a w) = []
         \/ JS.Qltb MAX_QUEUE_DURATION_MS (queuedDuration src') = true)
        /\ published (exec a w) ++ map frameOf (waiting (exec a w))
           = published w ++ map frameOf (waiting w)
             ++ map frameOf (arrivals [a])).
      { unfold published. rewrite Hs, Hsrc.
        destruct Hcases as [(-> & -> & -> & _ & Hq) | [(b & -> & Hlt & -> & ->)
                           | [(b & -> & Hlt & -> & ->) | (-> & -> & ->)]]];
          cbn [map].
        - rewrite (Hq He), !app_nil_r. auto.
        - rewrite map_app. auto.
        - destruct Hinv as [Hnil | Hgt]; [|congruence].
          rewrite Hnil. cbn. rewrite !app_nil_r. auto.
        - rewrite !app_nil_r. auto. }
      destruct Hstep as [Hinv' Hcontent].
      destruct (IH _ _ Hs Hinv') as (src'' & Hs'' & IHc).
      exists src''. split; [exact Hs''|].
      rewrite IHc, app_assoc, Hcontent, <- !app_assoc. reflexivity. }
  destruct H as (src' & Hs & Hcontent).
  split; [exact Hcontent|].
  rewrite run_snoc. cbn [exec].
  now rewrite (published_PlayoutDone _ _ Hs).
Qed.

(** X18.  When no playout happens between the steps of a run (and the
    sink is not created anew), playback keeps the order in which the audio
    deltas arrive.  Take a state with a sink and no suspended call, and a
    run in which [playAudioInRoom] is called by [handleMessage] only: the
    frames handed over, followed by the suspended buffers, are the frames
    handed over before the run followed by the decoded audio deltas of
    the run in their order, and after a final playout signal all of them
    have been handed over in that order. *)
Theorem order_kept_without_drain (acts : list Action) (w : World)
    (src : AudioSource) :
  audioSource (agent w) = Some src ->
  waiting w = [] ->
  Forall (fun a => is_setup a = false /\ is_elapse a = false
                   /\ is_direct_call a = false) acts ->
  published (run acts w) ++ map frameOf (waiting (run acts w))
  = published w ++ map frameOf (delta_buffers acts)
  /\ published (run (acts ++ [Deliver PlayoutDone]) w)
     = published w ++ map frameOf (delta_buffers acts).
Proof.
  intros Hsrc Hnil Hacts.
  rewrite <- (arrivals_of_deltas acts)
    by (eapply Forall_impl; [exact Hacts|]; now intros a (_ & _ & Ha)).
  destruct (arrivals_in_order acts w src Hsrc (or_introl Hnil)) as [H1 H2].
  { eapply Forall_impl; [exact Hacts|]. now intros a (Ha & He & _). }
  rewrite Hnil in H1, H2. now split.
Qed.

Lemma order_kept_without_drain_witness :
  published
    (run ([Deliver (SocketMessage (response_audio_delta
             (AudioConverter.toBase64 (data (frameOf (silence 500))))));
           Deliver (SocketMessage (response_audio_delta
             (AudioConverter.toBase64 (data (frameOf (silence 500))))));
           Deliver (SocketMessage (response_audio_delta
             (AudioConverter.toBase64 (data (frameOf (silence 500))))));
           Deliver (SocketMessage (response_audio_delta "AQACAA=="));
           Deliver (SocketMessage (response_audio_delta "AwAEAA=="))]
          ++ [Deliver PlayoutDone])
       (setupAudioPublishing new_AIAgent))
  = published (setupAudioPublishing new_AIAgent)
    ++ map frameOf
         (delta_buffers
            [Deliver (SocketMessage (response_audio_delta
               (AudioConverter.toBase64 (data (frameOf (silence 500))))));
             Deliver (SocketMessage (response_audio_delta
               (AudioConverter.toBase64 (data (frameOf (silence 500))))));
             Deliver (SocketMessage (response_audio_delta
               (AudioConverter.toBase64 (data (frameOf (silence 500))))));
             Deliver (SocketMessage (response_audio_delta "AQACAA=="));
             Deliver (SocketMessage (response_audio_delta "AwAEAA=="))]).
Proof.
  refine (proj2 (order_kept_without_drain
    [Deliver (SocketMessage (response_audio_delta
       (AudioConverter.toBase64 (data (frameOf (silence 500))))));
     Deliver (SocketMessage (response_audio_delta
       (AudioConverter.toBase64 (data (frameOf (silence 500))))));
     Deliver (SocketMessage (response_audio_delta
       (AudioConverter.toBase64 (data (frameOf (silence 500))))));
     Deliver (SocketMessage (response_audio_delta "AQACAA=="));
     Deliver (SocketMessage (response_audio_delta "AwAEAA=="))]
    (setupAudioPublishing new_AIAgent) Sink.new_AudioSource
    eq_refl eq_refl _)).
  repeat constructor.
Defined.

(** * The registry of subscribed tracks *)

Lemma room_run_cons (e : RoomEvent) (evs : list RoomEvent) (x : Relay) :
  room_run (e :: evs) x = room_run evs (onRoomEvent e x).
Proof. reflexivity. Qed.

(** What an event does to the [trackInfo] objects: a subscription adds
    one at the end, a frame counts on the object of its stream, and
    nothing else touches them. *)
Lemma infos_onRoomEvent (e : RoomEvent) (x : Relay) :
  infos (registry (onRoomEvent e x))
  = match e with
    | TrackSubscribed identity true now =>
        infos (registry x) ++ [mkTrackInfo identity 0 now 0]
    | StreamFrame k frame now =>
        alter (countFrame frame now) k (infos (registry x))
    | _ => infos (registry x)
    end.
Proof.
  destruct e as [identity [] now | | | |k now]; try reflexivity.
  cbn. unfold monitorTick.
  repeat match goal with
         | |- context [if ?c then _ else _] => destruct c
         | |- context [match ?o with Some _ => _ | None => _ end] => destruct o
         end; reflexivity.
Qed.

(** X19.  The counters of a [trackInfo] count the frames of its own stream, and
    [totalBytes] counts their 16 bit samples: after any events, the frame
    count of object [k] has grown by the number of frames its stream
    delivered and [totalBytes] by the number of samples in them, which is
    half the number of octets those samples occupy. *)
Theorem trackInfo_counts_own_frames (evs : list RoomEvent) (x : Relay)
    (k : nat) (info : TrackInfo) :
  infos (registry x) !! k = Some info ->
  exists info',
    infos (registry (room_run evs x)) !! k = Some info'
    /\ participant info' = participant info
    /\ frameCount info'
       = (frameCount info + N.of_nat (length (frames_of_stream k evs)))%N
    /\ totalBytes info'
       = (totalBytes info
          + N.of_nat (length (flat_map data (frames_of_stream k evs))))%N
    /\ (2 * length (flat_map data (frames_of_stream k evs)))%nat
       = length (flat_map (fun f => Buffer.from_Int16Array (data f))
                   (frames_of_stream k evs)).
Proof.
  revert x info. induction evs as [|e evs IH]; intros x info Hk.
  - exists info. cbn. repeat split; auto; lia.
  - rewrite room_run_cons.
    pose proof (infos_onRoomEvent e x) as He.
    destruct e as [identity audio now | identity | identity | j frame now | j now];
      cbn [frames_of_stream].
    + destruct (IH (onRoomEvent (TrackSubscribed identity audio now) x) info)
        as (info' & H); [|exists info'; exact H].
      rewrite He. destruct audio; [|exact Hk]. now apply lookup_app_l_Some.
    + destruct (IH (onRoomEvent (TrackUnsubscribed identity) x) info)
        as (info' & H); [|exists info'; exact H].
      now rewrite He.
    + destruct (IH (onRoomEvent (ParticipantDisconnected identity) x) info)
        as (info' & H); [|exists info'; exact H].
      now rewrite He.
    + case_bool_decide as Hjk.
      * subst j.
        destruct (IH (onRoomEvent (StreamFrame k frame now) x)
                    (countFrame frame now info))
          as (info' & Hl & Hp & Hf & Ht & Hb).
        { rewrite He, list_lookup_alter_eq, Hk. reflexivity. }
        exists info'. split; [exact Hl|]. rewrite Hp, Hf, Ht.
        cbn [countFrame participant frameCount totalBytes length flat_map].
        rewrite !length_app, length_from_Int16Array, <- Hb.
        repeat split; lia.
      * destruct (IH (onRoomEvent (StreamFrame j frame now) x) info)
          as (info' & H); [|exists info'; exact H].
        rewrite He, list_lookup_alter_ne by congruence. exact Hk.
    + destruct (IH (onRoomEvent (MonitorTick j now) x) info)
        as (info' & H); [|exists info'; exact H].
      now rewrite He.
Qed.

Lemma trackInfo_counts_own_frames_witness :
  exists info',
    infos (registry
             (room_run [StreamFrame 0 (mkAudioFrame [1; 2; 3] 48000 1 3) 10;
                        TrackUnsubscribed "alice";
                        StreamFrame 0 (mkAudioFrame [4; 5] 48000 1 2) 20]
                (onRoomEvent (TrackSubscribed "alice" true 0) new_Relay)))
    !! 0%nat = Some info'
    /\ frameCount info' = 2%N /\ totalBytes info' = 5%N.
Proof.
  destruct (trackInfo_counts_own_frames
              [StreamFrame 0 (mkAudioFrame [1; 2; 3] 48000 1 3) 10;
               TrackUnsubscribed "alice";
               StreamFrame 0 (mkAudioFrame [4; 5] 48000 1 2) 20]
              (onRoomEvent (TrackSubscribed "alice" true 0) new_Relay)
              0 (mkTrackInfo "alice" 0 0 0) eq_refl)
    as (info' & Hl & _ & Hf & Ht & _).
  exists info'. split; [exact Hl|]. split; [exact Hf | exact Ht].
Defined.

(** ** Every frame is forwarded *)

Lemma world_onRoomEvent (e : RoomEvent) (x : Relay) :
  world (onRoomEvent e x)
  = match e with
    | StreamFrame _ frame _ => forwardFrame frame (world x)
    | _ => world x
    end.
Proof. destruct e as [identity [] now | | | |]; reflexivity. Qed.

(** The frame loop of a stream does not consult the registry: every frame
    a stream delivers goes through conversion and [sendAudio], also when
    the entry of its participant has been deleted or replaced; the
    agent's side of the relay sees the frames of all streams, in the
    order of their delivery. *)
Theorem every_stream_frame_is_forwarded (evs : list RoomEvent) (x : Relay) :
  world (room_run evs x)
  = run (map (fun f => Deliver (TrackFrame f)) (stream_frames evs)) (world x).
Proof.
  revert x. induction evs as [|e evs IH]; intros x; [reflexivity|].
  rewrite room_run_cons, IH, world_onRoomEvent.
  destruct e; reflexivity.
Qed.

(** ** Subscribing again *)

Lemma shown_handleAudioTrack (identity : string) (now : Z) (r : Registry) :
  subscribedTracks (handleAudioTrack identity now r) !! identity
  = Some (length (infos r))
  /\ infos (handleAudioTrack identity now r) !! length (infos r)
     = Some (mkTrackInfo identity 0 now 0).
Proof.
  unfold handleAudioTrack. cbn. split.
  - apply lookup_insert_eq.
  - rewrite lookup_app_r by lia. now rewrite Nat.sub_diag.
Qed.

(** X20.  When the track of a participant is subscribed again, the registry
    shows the fresh object for that identity, and the frames that still
    arrive on older streams, the participant's former stream included, do
    not count in it: the entry stays at zero frames until the new stream
    delivers.  (Those frames are forwarded all the same.) *)
Theorem resubscription_shows_fresh_counters (x : Relay) (identity : string)
    (now : Z) (evs : list RoomEvent) :
  Forall (frame_of_other_stream (length (infos (registry x)))) evs ->
  shown identity
    (registry (room_run evs (onRoomEvent (TrackSubscribed identity true now) x)))
  = Some (mkTrackInfo identity 0 now 0).
Proof.
  intros Hevs.
  assert (H : forall x1,
             subscribedTracks (registry x1) !! identity
             = Some (length (infos (registry x)))
             /\ infos (registry x1) !! length (infos (registry x))
                = Some (mkTrackInfo identity 0 now 0) ->
             shown identity (registry (room_run evs x1))
             = Some (mkTrackInfo identity 0 now 0)).
  { induction Hevs as [|e evs He _ IH]; intros x1 [Hs Hi].
    - unfold shown. cbn. rewrite Hs. exact Hi.
    - rewrite room_run_cons. apply IH.
      destruct e as [| | | j frame t |]; try contradiction.
      cbn in He |- *. split; [exact Hs|].
      now rewrite list_lookup_alter_ne. }
  apply H. cbn. apply shown_handleAudioTrack.
Qed.

Lemma resubscription_shows_fresh_counters_witness :
  shown "alice"
    (registry
       (room_run [StreamFrame 0 (mkAudioFrame [1; 2] 48000 1 2) 30]
          (onRoomEvent (TrackSubscribed "alice" true 20)
             (onRoomEvent (TrackSubscribed "alice" true 0) new_Relay))))
  = Some (mkTrackInfo "alice" 0 20 0).
Proof.
  apply (resubscription_shows_fresh_counters
           (onRoomEvent (TrackSubscribed "alice" true 0) new_Relay)
           "alice" 20 [StreamFrame 0 (mkAudioFrame [1; 2] 48000 1 2) 30]).
  repeat constructor. cbn. lia.
Defined.

(** ** The monitor *)

(** X21.  An interval clears itself only at a tick that finds no entry for its
    participant, and it reads the entry by identity.  So when a
    participant's track is unsubscribed and subscribed again before the
    next tick, the old interval goes on: after a tick of each, both the
    old and the new interval are alive, and each has printed a line for
    the new object. *)
Theorem resubscription_keeps_old_interval (r : Registry) (k : nat)
    (own : TrackInfo) (now t1 t2 : Z) :
  k ∈ intervals r ->
  infos r !! k = Some own ->
  k ∈ intervals
        (monitorTick (length (infos r)) t2
           (monitorTick k t1
              (handleAudioTrack (participant own) now
                 (deleteTrack (participant own) r))))
  /\ length (infos r)
     ∈ intervals
         (monitorTick (length (infos r)) t2
            (monitorTick k t1
               (handleAudioTrack (participant own) now
                  (deleteTrack (participant own) r))))
  /\ monitorLog
       (monitorTick (length (infos r)) t2
          (monitorTick k t1
             (handleAudioTrack (participant own) now
                (deleteTrack (participant own) r))))
     = monitorLog r
       ++ [no_frames_yet (participant own); no_frames_yet (participant own)].
Proof.
  intros Hk Hown.
  set (id := participant own).
  set (r1 := handleAudioTrack id now (deleteTrack id r)).
  assert (Hlen : (k < length (infos r))%nat) by (eapply lookup_lt_Some; eauto).
  assert (Hin1 : k ∈ intervals r1) by (subst r1; cbn; set_solver).
  assert (Hin2 : length (infos r) ∈ intervals r1) by (subst r1; cbn; set_solver).
  assert (Hinfo_k : infos r1 !! k = Some own)
    by (subst r1; cbn; now apply lookup_app_l_Some).
  assert (Hsub : subscribedTracks r1 !! id = Some (length (infos r)))
    by (subst r1; cbn; apply lookup_insert_eq).
  assert (Hnew : infos r1 !! length (infos r) = Some (mkTrackInfo id 0 now 0)).
  { subst r1. cbn. rewrite lookup_app_r by lia. now rewrite Nat.sub_diag. }
  assert (Htick1 : monitorTick k t1 r1
                   = mkRegistry (infos r1) (subscribedTracks r1) (intervals r1)
                       (monitorLog r1 ++ [no_frames_yet id])).
  { unfold monitorTick. rewrite bool_decide_eq_true_2 by exact Hin1.
    rewrite Hinfo_k. fold id. rewrite Hsub, Hnew. reflexivity. }
  rewrite Htick1.
  assert (Htick2 :
    monitorTick (length (infos r)) t2
      (mkRegistry (infos r1) (subscribedTracks r1) (intervals r1)
         (monitorLog r1 ++ [no_frames_yet id]))
    = mkRegistry (infos r1) (subscribedTracks r1) (intervals r1)
        ((monitorLog r1 ++ [no_frames_yet id]) ++ [no_frames_yet id])).
  { unfold monitorTick. cbn [intervals infos subscribedTracks monitorLog].
    rewrite bool_decide_eq_true_2 by exact Hin2.
    rewrite Hnew. cbn [participant]. rewrite Hsub, Hnew. reflexivity. }
  rewrite Htick2. cbn [intervals monitorLog].
  split; [exact Hin1|]. split; [exact Hin2|].
  subst r1. cbn. now rewrite <- app_assoc.
Qed.

Lemma resubscription_keeps_old_interval_witness :
  0%nat ∈ intervals
    (monitorTick 1 5000
       (monitorTick 0 5000
          (handleAudioTrack "alice" 10
             (deleteTrack "alice" (handleAudioTrack "alice" 0 new_Registry))))).
Proof.
  refine (proj1 (resubscription_keeps_old_interval
                   (handleAudioTrack "alice" 0 new_Registry) 0
                   (mkTrackInfo "alice" 0 0 0) 10 5000 5000 _ eq_refl)).
  cbn. set_solver.
Defined.

(** X22.  Without a new subscription the interval does stop: at its first tick
    after the entry of its participant was deleted it clears itself and
    prints nothing, and its later ticks do nothing. *)
Theorem monitor_stops_after_unsubscribe (r : Registry) (k : nat)
    (own : TrackInfo) (t1 t2 : Z) :
  k ∈ intervals r ->
  infos r !! k = Some own ->
  intervals (monitorTick k t1 (deleteTrack (participant own) r))
  = intervals r ∖ {[k]}
  /\ monitorLog (monitorTick k t1 (deleteTrack (participant own) r))
     = monitorLog r
  /\ monitorTick k t2 (monitorTick k t1 (deleteTrack (participant own) r))
     = monitorTick k t1 (deleteTrack (participant own) r).
Proof.
  intros Hk Hown.
  assert (Htick : monitorTick k t1 (deleteTrack (participant own) r)
                  = mkRegistry (infos r)
                      (delete (participant own) (subscribedTracks r))
                      (intervals r ∖ {[k]}) (monitorLog r)).
  { unfold monitorTick, deleteTrack.
    cbn [intervals infos subscribedTracks monitorLog].
    rewrite bool_decide_eq_true_2 by exact Hk.
    rewrite Hown, lookup_delete_eq. reflexivity. }
  rewrite Htick. cbn [intervals monitorLog]. repeat split.
  unfold monitorTick. cbn [intervals].
  rewrite bool_decide_eq_false_2 by set_solver. reflexivity.
Qed.

Lemma monitor_stops_after_unsubscribe_witness :
  intervals
    (monitorTick 0 5000
       (deleteTrack "alice" (handleAudioTrack "alice" 0 new_Registry)))
  = intervals (handleAudioTrack "alice" 0 new_Registry) ∖ {[0%nat]}.
Proof.
  refine (proj1 (monitor_stops_after_unsubscribe
                   (handleAudioTrack "alice" 0 new_Registry) 0
                   (mkTrackInfo "alice" 0 0 0) 5000 6000 _ eq_refl)).
  cbn. set_solver.
Defined.

(** * The token server *)

(** X23.  The answers of [POST /api/token]: 400 exactly when [identity] or
    [roomName] is missing or falsy (the empty string included), and then
    no token is made; 200 exactly when both are truthy and the token could
    be made, and then the answer carries the token made for exactly that
    identity and room, with the two echoed back and the configured URL;
    500 is left for a failure while making the token. *)
Theorem post_api_token_answers (LIVEKIT_URL : string)
    (toJwt : JsonValue -> JsonValue -> completion string)
    (properties : gmap string JsonValue) :
  (status (post_api_token LIVEKIT_URL toJwt (Some properties)) = 400
   <-> truthy (properties !! "identity") = false
       \/ truthy (properties !! "roomName") = false)
  /\ (truthy (properties !! "identity") = false
      \/ truthy (properties !! "roomName") = false ->
      post_api_token LIVEKIT_URL toJwt (Some properties)
      = mkResponse 400 (error_body "identity and roomName are required"))
  /\ (status (post_api_token LIVEKIT_URL toJwt (Some properties)) = 200
      <-> exists i r jwt,
            properties !! "identity" = Some i
            /\ properties !! "roomName" = Some r
            /\ truthy (Some i) = true /\ truthy (Some r) = true
            /\ toJwt i r = Normal jwt
            /\ post_api_token LIVEKIT_URL toJwt (Some properties)
               = mkResponse 200 (token_body jwt LIVEKIT_URL i r)).
Proof.
  unfold post_api_token.
  destruct (properties !! "identity") as [i|] eqn:Hi;
    destruct (properties !! "roomName") as [r|] eqn:Hr.
  - destruct (truthy (Some i)) eqn:Hti, (truthy (Some r)) eqn:Htr;
      cbn [negb orb].
    + destruct (toJwt i r) as [jwt|msg] eqn:Hjwt; cbn [status].
      * split; [split; [discriminate | intros [|]; discriminate]|].
        split; [intros [|]; discriminate|].
        split; [intros _; exists i, r, jwt; repeat split; auto
               | intros _; reflexivity].
      * split; [split; [discriminate | intros [|]; discriminate]|].
        split; [intros [|]; discriminate|].
        split; [discriminate|].
        intros (i' & r' & jwt' & H1 & H2 & _ & _ & H5 & _). congruence.
    + split; [split; auto|]. split; [reflexivity|].
      split; [discriminate|].
      intros (i' & r' & jwt' & H1 & H2 & _ & H4 & _). congruence.
    + split; [split; auto|]. split; [reflexivity|].
      split; [discriminate|].
      intros (i' & r' & jwt' & H1 & H2 & H3 & _). congruence.
    + split; [split; auto|]. split; [reflexivity|].
      split; [discriminate|].
      intros (i' & r' & jwt' & H1 & H2 & H3 & _). congruence.
  - cbn [truthy negb orb status]. rewrite orb_true_r.
    split; [split; auto|]. split; [reflexivity|].
    split; [discriminate|]. intros (i' & r' & jwt' & _ & H2 & _). discriminate.
  - cbn [truthy negb orb status].
    split; [split; auto|]. split; [reflexivity|].
    split; [discriminate|]. intros (i' & r' & jwt' & H1 & _). discriminate.
  - cbn [truthy negb orb status].
    split; [split; auto|]. split; [reflexivity|].
    split; [discriminate|]. intros (i' & r' & jwt' & H1 & _). discriminate.
Qed.

Lemma post_api_token_answers_witness :
  status
    (post_api_token "ws://localhost:7880" (fun _ _ => Normal "signed")
       (Some (<["identity" := JString "alice"]>
                (<["roomName" := JString "demo-room"]> ∅))))
  = 200
  /\ status
       (post_api_token "ws://localhost:7880" (fun _ _ => Normal "signed")
          (Some (<["identity" := JString ""]>
                   (<["roomName" := JString "demo-room"]> ∅))))
     = 400.
Proof.
  split.
  - apply (proj2 (proj2 (proj2
      (post_api_token_answers "ws://localhost:7880"
         (fun _ _ => Normal "signed")
         (<["identity" := JString "alice"]>
            (<["roomName" := JString "demo-room"]> ∅)))))).
    exists (JString "alice"), (JString "demo-room"), "signed"%string.
    repeat split; vm_compute; reflexivity.
  - apply (proj2 (proj1
      (post_api_token_answers "ws://localhost:7880"
         (fun _ _ => Normal "signed")
         (<["identity" := JString ""]>
            (<["roomName" := JString "demo-room"]> ∅))))).
    left. vm_compute. reflexivity.
Defined.
